(** * Canny edge extraction of the low-poly pipeline (edgedetect.cpp)

    A shallow embedding of [src/LowPoly/EdgeDraw/edgedetect.cpp]: gray
    conversion and Sobel gradient, non-maximum suppression, adaptive
    hysteresis tracking with the recursive [mark], and the driver
    [extractEdgeCanny].

    Integers of the source are [Z] with their wrap-around written out where
    the source can wrap; [float] and [double] values are IEEE-754 binary32 and
    binary64 numbers of [SpecFloat], computed with its correctly rounded
    operations; pixel buffers are lists addressed by [x + y * width]. *)

From Stdlib Require Import ZArith List Bool Lia.
From Stdlib Require Import Floats.SpecFloat.
From stdpp Require Import base list strings.

Open Scope Z_scope.

(* ================================================================= *)
(** ** Machine numbers *)

Module Num.

(** [unsigned int] arithmetic wraps modulo 2^32. *)
Definition u32 (z : Z) : Z := z mod 2 ^ 32.

(** binary64 ([double]) and binary32 ([float]) share the carrier
    [spec_float]; the format is chosen by the operation. *)
Definition double := spec_float.
Definition float := spec_float.

Definition d_of_Z (z : Z) : double := binary_normalize 53 1024 z 0 false.
Definition f_of_Z (z : Z) : float := binary_normalize 24 128 z 0 false.

Definition dadd : double -> double -> double := SFadd 53 1024.
Definition dmul : double -> double -> double := SFmul 53 1024.
Definition ddiv : double -> double -> double := SFdiv 53 1024.
Definition dsqrt : double -> double := SFsqrt 53 1024.

Definition fadd : float -> float -> float := SFadd 24 128.
Definition fsub : float -> float -> float := SFsub 24 128.
Definition fmul : float -> float -> float := SFmul 24 128.

(** Conversion [double] to [float] rounds to nearest even; the converse
    conversion is exact. *)
Definition f_of_d (d : double) : float :=
  match d with
  | S754_finite s m e => binary_round 24 128 s m e
  | _ => d
  end.

Definition d_of_f (f : float) : double :=
  match f with
  | S754_finite s m e => binary_round 53 1024 s m e
  | _ => f
  end.

(** Conversion of a floating value to an integer drops the fraction
    (rounds toward zero). *)
Definition trunc (f : spec_float) : Z :=
  match f with
  | S754_finite s m e =>
      let a := Z.shiftl (Z.pos m) e in if s then - a else a
  | _ => 0
  end.

(** Implicit conversions to [unsigned char] and [unsigned int].  For a
    value inside the target range this is [trunc]; outside it C++ leaves the
    result undefined, and the model keeps the low bits of the truncated
    value, as the conversion through a wider integer register does. *)
Definition to_uchar (f : spec_float) : Z := trunc f mod 256.
Definition to_uint (f : spec_float) : Z := trunc f mod 2 ^ 32.

(** Comparisons; every comparison with a NaN is false. *)
Definition flt (a b : spec_float) : bool := SFltb a b.
Definition fge (a b : spec_float) : bool := SFleb b a.

(** The literal [k / 2] as a [double] (22.5, 67.5, 112.5, 157.5). *)
Definition d_half (k : Z) : double := SFldexp 53 1024 (d_of_Z k) (-1).

(** The literals of the gray conversion, rounded to [double]. *)
Definition c_0299 : double := ddiv (d_of_Z 299) (d_of_Z 1000).
Definition c_0587 : double := ddiv (d_of_Z 587) (d_of_Z 1000).
Definition c_0114 : double := ddiv (d_of_Z 114) (d_of_Z 1000).

End Num.
Import Num.

(* ================================================================= *)
(** ** Images *)

(** [CImg<T>] restricted to what the source uses: the dimensions and the
    pixel buffer, plane after plane, each plane row after row. *)
Record Img (T : Type) : Type := mkImg {
  width : Z;
  height : Z;
  data : list T
}.
Arguments mkImg {T} _ _ _.
Arguments width {T} _.
Arguments height {T} _.
Arguments data {T} _.

Definition CImg := Img Z.
Definition CImgFloat := Img float.

(** Position of sample [(x, y, z)] in the buffer. *)
Definition offset {T} (img : Img T) (x y z : Z) : nat :=
  Z.to_nat (x + y * width img + z * (width img * height img)).

(** [img(x, y, z)]; [dflt] stands for a read outside the buffer, which the
    source never performs on the grids it builds. *)
Definition px3 {T} (dflt : T) (img : Img T) (x y z : Z) : T :=
  default dflt (data img !! offset img x y z).

(** [img(x, y)] of an unsigned char image and of a float image. *)
Definition px (img : CImg) (x y : Z) : Z := px3 0 img x y 0.
Definition pxf (img : CImgFloat) (x y : Z) : float := px3 (S754_zero false) img x y 0.

(** [img(x, y) = v]. *)
Definition set_px {T} (img : Img T) (x y : Z) (v : T) : Img T :=
  mkImg (width img) (height img) (<[offset img x y 0 := v]> (data img)).

(** Modelled from the spec: [CImg.h] and [edgedraw.h] are not part of the
    sources at hand, so the content of a grid constructed as
    [CImg g(width, height)] is taken from the data model of the
    specification, where a pixel that is never assigned stays at its
    initialized default 0. *)
Definition CImg_new (w h : Z) : CImg :=
  mkImg w h (replicate (Z.to_nat (w * h)) 0).

Definition CImgFloat_new (w h : Z) : CImgFloat :=
  mkImg w h (replicate (Z.to_nat (w * h)) (S754_zero false)).

(** [0, 1, ..., n-1]. *)
Definition zrange (n : Z) : list Z := map Z.of_nat (seq 0 (Z.to_nat n)).

(** [cimg_forXY(img, x, y) body]: rows from top to bottom, each row from
    left to right. *)
Definition cimg_forXY {T S} (img : Img T) (body : S -> Z -> Z -> S) (s : S) : S :=
  fold_left
    (fun s y => fold_left (fun s x => body s x y) (zrange (width img)) s)
    (zrange (height img)) s.

(** A pixel that is not on the one-pixel frame of the image. *)
Definition interior {T} (img : Img T) (x y : Z) : bool :=
  (0 <? x) && (x <? width img - 1) && (0 <? y) && (y <? height img - 1).

(** Standard output: the lines written, oldest first. *)
Definition Out := list string.

(* ================================================================= *)
(** ** Gradient *)

(** The result of [calculateGradient].  Its declaration lives in
    [edgedraw.h], which is not at hand; the magnitude ends in an
    [unsigned char] grid and the direction in a [float] grid, so the record
    carries the values as those grids store them. *)
Record gradientResp := mkGradientResp { mag : Z; dir : float }.

Definition SOBEL_X : list (list Z) := [[-1; 0; 1]; [-2; 0; 2]; [-1; 0; 1]].
Definition SOBEL_Y : list (list Z) := [[-1; -2; -1]; [0; 0; 0]; [1; 2; 1]].

(** [K[i][j]] of a 3x3 table. *)
Definition kernel (K : list (list Z)) (i j : Z) : Z :=
  nth (Z.to_nat j) (nth (Z.to_nat i) K []) 0.

Section Gradient.

(** [atan2 (gy, gx) * 180 / M_PI] as the C library delivers it, stored in
    a [float]; the library function is not part of the sources. *)
Variable atan2_deg : Z -> Z -> float.

(** The two accumulators of [calculateGradient] after the double loop. *)
Definition sobel_sums (image : CImg) (x y : Z) : Z * Z :=
  fold_left
    (fun acc i =>
       fold_left
         (fun '(gradientX, gradientY) j =>
            (gradientX + kernel SOBEL_X (i + 1) (j + 1) * px image (x + i) (y + j),
             gradientY + kernel SOBEL_Y (i + 1) (j + 1) * px image (x + i) (y + j)))
         [-1; 0; 1] acc)
    [-1; 0; 1] (0, 0).

(** The magnitude is the [double] square root converted to the 8-bit
    sample of the gradient grid. *)
Definition calculateGradient (image : CImg) (x y : Z) : gradientResp :=
  let '(gradientX, gradientY) := sobel_sums image x y in
  mkGradientResp
    (to_uchar (dsqrt (d_of_Z (gradientX * gradientX + gradientY * gradientY))))
    (atan2_deg gradientY gradientX).

Definition grayValue (image : CImg) (x y : Z) : Z :=
  to_uchar
    (dadd (dadd (dmul c_0299 (d_of_Z (px3 0 image x y 0)))
                (dmul c_0587 (d_of_Z (px3 0 image x y 1))))
          (dmul c_0114 (d_of_Z (px3 0 image x y 2)))).

Definition toGray (image : CImg) : CImg :=
  cimg_forXY image
    (fun grayImage x y => set_px grayImage x y (grayValue image x y))
    (CImg_new (width image) (height image)).

Definition gradientInGray (image gradient : CImg) (direction : CImgFloat)
  : CImg * CImgFloat :=
  let grayImage := toGray image in
  cimg_forXY grayImage
    (fun '(gradient, direction) x y =>
       if interior grayImage x y then
         let gr := calculateGradient grayImage x y in
         (set_px gradient x y (mag gr), set_px direction x y (dir gr))
       else (gradient, direction))
    (gradient, direction).

End Gradient.

(** The color path only reports that it is missing. *)
Definition gradientInColor (image gradient : CImg) (direction : CImgFloat)
  : CImg * CImgFloat * Out :=
  (gradient, direction, ["Error: Function not implemented"%string]).

(* ================================================================= *)
(** ** Non-maximum suppression *)

Definition discretizeDirection (angle : float) : Z * Out :=
  let angle := if flt angle (f_of_Z 0) then fadd angle (f_of_Z 180) else angle in
  let a := d_of_f angle in
  if (flt a (d_half 45) && fge a (d_half (-45)))
     || fge a (d_half 315) || flt a (d_half (-315)) then (0, [])
  else if (fge a (d_half 45) && flt a (d_half 135))
          || (flt a (d_half (-225)) && fge a (d_half (-315))) then (1, [])
  else if (fge a (d_half 135) && flt a (d_half 225))
          || (flt a (d_half (-135)) && fge a (d_half (-225))) then (2, [])
  else if (fge a (d_half 225) && flt a (d_half 315))
          || (flt a (d_half (-45)) && fge a (d_half (-135))) then (3, [])
  else (-1, ["Error: Angle out of range"%string]).

(** The two magnitudes a pixel is compared with, by direction bin; both stay
    at their initial 0 when the bin is none of 0..3. *)
Definition neighbour_mags (gradient : CImg) (d x y : Z) : Z * Z :=
  if d =? 0 then (px gradient (x - 1) y, px gradient (x + 1) y)
  else if d =? 1 then (px gradient (x - 1) (y - 1), px gradient (x + 1) (y + 1))
  else if d =? 2 then (px gradient x (y - 1), px gradient x (y + 1))
  else if d =? 3 then (px gradient (x + 1) (y - 1), px gradient (x - 1) (y + 1))
  else (0, 0).

Definition nonMaxSuppression (edge gradient : CImg) (direction : CImgFloat)
  : CImg * Out :=
  cimg_forXY edge
    (fun '(e, out) x y =>
       if interior edge x y then
         let angle := pxf direction x y in
         let '(d, msg) := discretizeDirection angle in
         let magnitude := px gradient x y in
         let '(mag1, mag2) := neighbour_mags gradient d x y in
         if (mag1 <=? magnitude) && (mag2 <=? magnitude)
         then (set_px e x y magnitude, out ++ msg)
         else (set_px e x y 0, out ++ msg)
       else (e, out))
    (edge, []).

(* ================================================================= *)
(** ** Hysteresis tracking *)

(** How a run of [trackEdge] ends: it returns, or it reaches the unsigned
    division [sum / numPixels] with a zero divisor, which C++ leaves
    undefined.  [OutOfFuel] belongs to the model only: the recursion of [mark]
    is unfolded a bounded number of times. *)
Inductive outcome (A : Type) : Type :=
  | Returned (a : A)
  | DivisionByZero
  | OutOfFuel.
Arguments Returned {A} _.
Arguments DivisionByZero {A}.
Arguments OutOfFuel {A}.

(** The bounds test of [mark] on a neighbour. *)
Definition inside {T} (img : Img T) (nx ny : Z) : bool :=
  (0 <=? nx) && (nx <? width img) && (0 <=? ny) && (ny <? height img).

(** [mark], together with the history of its calls: [visits] lists the
    pixels [mark] was entered at, most recent first.  [fuel] bounds the depth
    of the recursion; [None] means the bound was hit. *)
Fixpoint mark_visits (fuel : nat) (edge : CImg) (visits : list (Z * Z))
    (x y lowThreshold : Z) : option (CImg * list (Z * Z)) :=
  match fuel with
  | O => None
  | S fuel =>
      fold_left
        (fun st dx =>
           fold_left
             (fun st dy =>
                match st with
                | None => None
                | Some (edge, visits) =>
                    let nx := x + dx in
                    let ny := y + dy in
                    if inside edge nx ny
                       && negb (px edge nx ny =? 255)
                       && (lowThreshold <=? px edge nx ny)
                    then mark_visits fuel edge visits nx ny lowThreshold
                    else Some (edge, visits)
                end)
             [-1; 0; 1] st)
        [-1; 0; 1]
        (Some (set_px edge x y 255, (x, y) :: visits))
  end.

(** [mark] as the source has it, on the grid alone. *)
Fixpoint mark (fuel : nat) (edge : CImg) (x y lowThreshold : Z) : option CImg :=
  match fuel with
  | O => None
  | S fuel =>
      fold_left
        (fun st dx =>
           fold_left
             (fun st dy =>
                match st with
                | None => None
                | Some edge =>
                    let nx := x + dx in
                    let ny := y + dy in
                    if inside edge nx ny
                       && negb (px edge nx ny =? 255)
                       && (lowThreshold <=? px edge nx ny)
                    then mark fuel edge nx ny lowThreshold
                    else Some edge
                end)
             [-1; 0; 1] st)
        [-1; 0; 1]
        (Some (set_px edge x y 255))
  end.

(** Statistics of [trackEdge]. *)
Definition numPixels (edge : CImg) : Z := u32 (width edge * height edge).

Definition pixel_sum (edge : CImg) : Z :=
  cimg_forXY edge (fun sum x y => u32 (sum + px edge x y)) 0.

Definition mean_of (edge : CImg) : float :=
  f_of_Z (pixel_sum edge / numPixels edge).

Definition pixel_sumSq (edge : CImg) : Z :=
  let mean := mean_of edge in
  cimg_forXY edge
    (fun sumSq x y =>
       to_uint (fadd (f_of_Z sumSq)
                     (fmul (fsub (f_of_Z (px edge x y)) mean)
                           (fsub (f_of_Z (px edge x y)) mean))))
    0.

Definition stdDev_of (edge : CImg) : float :=
  f_of_d (dsqrt (d_of_Z (pixel_sumSq edge / numPixels edge))).

Definition highThreshold_of (edge : CImg) : Z :=
  to_uchar (fadd (mean_of edge) (fmul (f_of_Z 2) (stdDev_of edge))).

Definition lowThreshold_of (edge : CImg) : Z :=
  to_uchar (fadd (mean_of edge) (fmul (f_of_Z 1) (stdDev_of edge))).

(** The third loop of [trackEdge]: strong pixels seed [mark], pixels below
    the low threshold are cleared. *)
Definition track_step_visits (fuel : nat) (highThreshold lowThreshold : Z)
    (st : option (CImg * list (Z * Z))) (x y : Z) : option (CImg * list (Z * Z)) :=
  match st with
  | None => None
  | Some (edge, visits) =>
      if (highThreshold <=? px edge x y) && negb (px edge x y =? 255)
      then mark_visits fuel edge visits x y lowThreshold
      else if px edge x y <? lowThreshold
           then Some (set_px edge x y 0, visits)
           else Some (edge, visits)
  end.

Definition track_step (fuel : nat) (highThreshold lowThreshold : Z)
    (st : option CImg) (x y : Z) : option CImg :=
  match st with
  | None => None
  | Some edge =>
      if (highThreshold <=? px edge x y) && negb (px edge x y =? 255)
      then mark fuel edge x y lowThreshold
      else if px edge x y <? lowThreshold
           then Some (set_px edge x y 0)
           else Some edge
  end.

(** The last loop of [trackEdge]. *)
Definition clear_unselected (edge : CImg) : CImg :=
  cimg_forXY edge
    (fun e x y => if negb (px e x y =? 255) then set_px e x y 0 else e)
    edge.

(** Depth that the recursion of [mark] cannot exceed: one more than the
    number of pixels (see [mark_visits_terminates]). *)
Definition mark_fuel (edge : CImg) : nat := S (length (data edge)).

Definition trackEdge_visits (edge : CImg) : outcome (CImg * list (Z * Z)) :=
  if numPixels edge =? 0 then DivisionByZero
  else
    match cimg_forXY edge
            (track_step_visits (mark_fuel edge)
               (highThreshold_of edge) (lowThreshold_of edge))
            (Some (edge, []))
    with
    | None => OutOfFuel
    | Some (e, visits) => Returned (clear_unselected e, visits)
    end.

Definition trackEdge (edge : CImg) : outcome CImg :=
  if numPixels edge =? 0 then DivisionByZero
  else
    match cimg_forXY edge
            (track_step (mark_fuel edge)
               (highThreshold_of edge) (lowThreshold_of edge))
            (Some edge)
    with
    | None => OutOfFuel
    | Some e => Returned (clear_unselected e)
    end.

(* ================================================================= *)
(** ** The driver *)

Section Driver.

Variable atan2_deg : Z -> Z -> float.

(** What [extractEdgeCanny] writes to standard output and how it ends. *)
Definition extractEdgeCanny (image : CImg) (method : Z) : Out * outcome CImg :=
  let gradient := CImg_new (width image) (height image) in
  let direction := CImgFloat_new (width image) (height image) in
  let '(gradient, direction, out1) :=
    if method =? 0
    then (gradientInGray atan2_deg image gradient direction, [])
    else gradientInColor image gradient direction in
  let edge := CImg_new (width image) (height image) in
  let '(edge, out2) := nonMaxSuppression edge gradient direction in
  (out1 ++ out2, trackEdge edge).

End Driver.

(** Sample inputs. *)
Definition rgb_flat (w h v : Z) : CImg :=
  mkImg w h (replicate (Z.to_nat (3 * (w * h))) v).

Definition zero_atan (gy gx : Z) : float := S754_zero false.

Definition strip_9_200_255 : CImg := mkImg 3 1 [9; 200; 255].

Definition peak_3x3 : CImg := mkImg 3 3 [0; 0; 0; 0; 5; 0; 0; 0; 0].

(* ================================================================= *)
(** ** Predicates of the statements *)

(** Pixel coordinates inside the image. *)
Definition inb {T} (img : Img T) (x y : Z) : Prop :=
  0 <= x < width img /\ 0 <= y < height img.

(** A pixel on the one-pixel frame. *)
Definition on_border {T} (img : Img T) (x y : Z) : Prop :=
  x = 0 \/ x = width img - 1 \/ y = 0 \/ y = height img - 1.

(** A single-plane grid whose buffer has one sample per pixel. *)
Definition wf_img {T} (img : Img T) : Prop :=
  0 <= width img /\ 0 <= height img /\
  length (data img) = Z.to_nat (width img * height img).

(** The samples of an [unsigned char] grid. *)
Definition bytes (img : CImg) : Prop :=
  Forall (fun v => 0 <= v <= 255) (data img).

(** Number of samples different from 255. *)
Fixpoint unmarked (l : list Z) : nat :=
  match l with
  | [] => O
  | v :: l => ((if (v =? 255)%Z then 0 else 1) + unmarked l)%nat
  end.

(** What marking does to a grid: [e'] is [e] after the calls of [mark]
    listed in [new].  The dimensions stay, a sample equal to 255 stays 255,
    every call was entered at a pixel inside the grid that was not 255 and is
    255 afterwards, no pixel was entered twice, and each call lowers the
    number of samples different from 255 by one. *)
Record marks (e e' : CImg) (new : list (Z * Z)) : Prop := mkMarks {
  mk_width : width e' = width e;
  mk_height : height e' = height e;
  mk_length : length (data e') = length (data e);
  mk_bytes : bytes e -> bytes e';
  mk_keeps : forall i, data e !! i = Some 255 -> data e' !! i = Some 255;
  mk_nodup : List.NoDup new;
  mk_count : (unmarked (data e') + length new = unmarked (data e))%nat;
  mk_new : forall x y, In (x, y) new ->
             inb e x y /\ px e x y <> 255 /\ px e' x y = 255
}.

(** The nine offsets [(dx, dy)] in the order of the two loops of [mark], and
    the body of those loops. *)
Definition offsets9 : list (Z * Z) :=
  [(-1, -1); (-1, 0); (-1, 1); (0, -1); (0, 0); (0, 1); (1, -1); (1, 0); (1, 1)].

Definition visit_neighbour (fuel : nat) (x y lowThreshold : Z)
    (st : option (CImg * list (Z * Z))) (d : Z * Z) : option (CImg * list (Z * Z)) :=
  match st with
  | None => None
  | Some (edge, visits) =>
      let nx := x + fst d in
      let ny := y + snd d in
      if inside edge nx ny
         && negb (px edge nx ny =? 255)
         && (lowThreshold <=? px edge nx ny)
      then mark_visits fuel edge visits nx ny lowThreshold
      else Some (edge, visits)
  end.

Definition mark_neighbour (fuel : nat) (x y lowThreshold : Z)
    (st : option CImg) (d : Z * Z) : option CImg :=
  match st with
  | None => None
  | Some edge =>
      let nx := x + fst d in
      let ny := y + snd d in
      if inside edge nx ny
         && negb (px edge nx ny =? 255)
         && (lowThreshold <=? px edge nx ny)
      then mark fuel edge nx ny lowThreshold
      else Some edge
  end.

(** Forgetting the history of calls. *)
Definition forget (st : option (CImg * list (Z * Z))) : option CImg :=
  match st with
  | Some (e, _) => Some e
  | None => None
  end.

(** The value non-maximum suppression leaves at an interior pixel: its
    magnitude if neither neighbour along its direction is larger, else 0. *)
Definition suppressed (gradient : CImg) (direction : CImgFloat) (x y : Z) : Z :=
  let d := fst (discretizeDirection (pxf direction x y)) in
  let magnitude := px gradient x y in
  if (fst (neighbour_mags gradient d x y) <=? magnitude)
     && (snd (neighbour_mags gradient d x y) <=? magnitude)
  then magnitude else 0.

(** The two sums of [calculateGradient] written out.  The tables are
    indexed [dx + 1] first and [dy + 1] second, so [gradientX] is the row
    below minus the row above and [gradientY] the column to the right minus
    the column to the left, each with the weights 1 2 1. *)
Definition sobel_x (image : CImg) (x y : Z) : Z :=
  (px image (x - 1) (y + 1) - px image (x - 1) (y - 1))
  + 2 * (px image x (y + 1) - px image x (y - 1))
  + (px image (x + 1) (y + 1) - px image (x + 1) (y - 1)).

Definition sobel_y (image : CImg) (x y : Z) : Z :=
  (px image (x + 1) (y - 1) - px image (x - 1) (y - 1))
  + 2 * (px image (x + 1) y - px image (x - 1) y)
  + (px image (x + 1) (y + 1) - px image (x - 1) (y + 1)).

(** The derivatives as the specification words them.  The kernel
    [[-1,0,1],[-2,0,2],[-1,0,1]] is laid over the 3x3 neighbourhood with its
    rows along the rows of the image, so it weighs the column to the right
    against the column to the left; its transpose-negation weighs the row
    above against the row below. *)
Definition spec_kernel : list (list Z) := [[-1; 0; 1]; [-2; 0; 2]; [-1; 0; 1]].
Definition spec_kernel_tn : list (list Z) := [[1; 2; 1]; [0; 0; 0]; [-1; -2; -1]].

Definition spec_weighted (K : list (list Z)) (image : CImg) (x y : Z) : Z :=
  fold_left
    (fun acc r =>
       fold_left
         (fun acc c => acc + kernel K (r + 1) (c + 1) * px image (x + c) (y + r))
         [-1; 0; 1] acc)
    [-1; 0; 1] 0.

Definition spec_Gx : CImg -> Z -> Z -> Z := spec_weighted spec_kernel.
Definition spec_Gy : CImg -> Z -> Z -> Z := spec_weighted spec_kernel_tn.

(** A 4x5 color image that changes from left to right only: every row is
    0 10 40 40 in each of the three planes. *)
Definition rgb_step_4x5 : CImg :=
  mkImg 4 5 (concat (replicate 15 [0; 10; 40; 40])).

(** An [atan2] that is right on the positive ordinate axis, where the C
    library delivers 90 degrees, and 0 elsewhere. *)
Definition upward_atan (gy gx : Z) : float :=
  if (gx =? 0) && (0 <? gy) then f_of_Z 90 else S754_zero false.

(** The integer nearest to the square root of [n]. *)
Definition round_sqrt (n : Z) : Z := (Z.sqrt (4 * n) + 1) / 2.

(** A 3x3 color image, black but for its last pixel, which is (7, 7, 7). *)
Definition rgb_corner_7 : CImg :=
  mkImg 3 3 ([0; 0; 0; 0; 0; 0; 0; 0; 7] ++ [0; 0; 0; 0; 0; 0; 0; 0; 7]
             ++ [0; 0; 0; 0; 0; 0; 0; 0; 7]).

(** The sum of the samples of a buffer, without wrap-around. *)
Definition total (l : list Z) : Z := fold_right Z.add 0 l.

(** The thresholds as the specification words them: the mean and the
    population standard deviation from the integer sum and the integer sum of
    squares with the divisions done in floating point, and each threshold
    saturated into 0..255. *)
Definition saturate_u8 (z : Z) : Z := Z.max 0 (Z.min 255 z).

Definition thresholds_spec (edge : CImg) : Z * Z :=
  let n := f_of_Z (width edge * height edge) in
  let mu := SFdiv 24 128 (f_of_Z (total (data edge))) n in
  let meanSq := SFdiv 24 128 (f_of_Z (total (map (fun v => v * v) (data edge)))) n in
  let sigma := SFsqrt 24 128 (fsub meanSq (fmul mu mu)) in
  (saturate_u8 (trunc (fadd mu (fmul (f_of_Z 2) sigma))),
   saturate_u8 (trunc (fadd mu sigma))).

(** The 2x1 grid with the samples 0 and 3. *)
Definition pair_0_3 : CImg := mkImg 2 1 [0; 3].

(** A grid whose pixels are all 0 or 255. *)
Definition binary (img : CImg) : Prop :=
  forall x y, inb img x y -> px img x y = 0 \/ px img x y = 255.

(* ================================================================= *)
(** ** Predicates of the further properties *)

(** A NaN of either format. *)
Definition is_nan (f : spec_float) : bool :=
  match f with S754_nan => true | _ => false end.

(** The [float] [k / 2]: an angle given in half degrees. *)
Definition f_half (k : Z) : float := SFldexp 24 128 (f_of_Z k) (-1).

(** The bin of the angle [k / 2] degrees, read off the bounds 22.5, 67.5,
    112.5 and 157.5. *)
Definition bin_of_half (k : Z) : Z :=
  let k := if k <? 0 then k + 360 else k in
  if k <? 45 then 0 else if k <? 135 then 1 else if k <? 225 then 2
  else if k <? 315 then 3 else 0.

(** The line that [discretizeDirection] writes in its last branch. *)
Definition angle_error : Out := ["Error: Angle out of range"%string].

(** [e'] differs from [e] only at samples that became 255. *)
Definition only_marks (e e' : CImg) : Prop :=
  forall i v, data e' !! i = Some v -> v = 255 \/ data e !! i = Some v.

(** The pixel [(a, b)] has no neighbour left to take: each of the nine
    pixels around it that lies inside the grid is 255 or below the low
    threshold. *)
Definition closed_at (low : Z) (e : CImg) (a b : Z) : Prop :=
  forall d, In d offsets9 ->
    inside e (a + fst d) (b + snd d) = true ->
    px e (a + fst d) (b + snd d) = 255 \/ px e (a + fst d) (b + snd d) < low.

(** What a call of [mark] at [(x, y)] with low threshold [low] has done
    when it has turned [e] into [e'], entering at the pixels [new]. *)
Record flooded (low x y : Z) (e e' : CImg) (new : list (Z * Z)) : Prop := mkFlooded {
  fl_only : only_marks e e';
  fl_logged : forall a b, inb e a b -> px e' a b = 255 -> px e a b = 255 \/ In (a, b) new;
  fl_low : forall a b, In (a, b) new -> (a, b) = (x, y) \/ low <= px e a b;
  fl_closed : forall a b, In (a, b) new -> closed_at low e' a b
}.

(** The state [(e1, l1)] of the tracking loop of [trackEdge] on the grid
    [e]: how its pixels relate to those of [e], and what is known of the
    pixels [mark] has entered so far. *)
Record tracked (high low : Z) (e e1 : CImg) (l1 : list (Z * Z)) : Prop := mkTracked {
  tr_marks : marks e e1 l1;
  tr_vals : forall a b, inb e a b ->
              px e1 a b = px e a b \/ px e1 a b = 255 \/
              (px e1 a b = 0 /\ px e a b < low /\ px e a b < high);
  tr_logged : forall a b, inb e a b -> px e1 a b = 255 -> px e a b = 255 \/ In (a, b) l1;
  tr_level : forall a b, In (a, b) l1 -> high <= px e a b \/ low <= px e a b;
  tr_closed : forall a b, In (a, b) l1 -> closed_at low e1 a b
}.

(** No sample of a float grid is a NaN. *)
Definition no_nan (d : CImgFloat) : Prop := Forall (fun f => is_nan f = false) (data d).

(** The grid whose samples all equal [v]. *)
Definition flat_grid (w h v : Z) : CImg := mkImg w h (replicate (Z.to_nat (w * h)) v).

(** A three-channel image: one plane per color. *)
Definition rgb_img (image : CImg) : Prop :=
  0 <= width image /\ 0 <= height image /\
  length (data image) = Z.to_nat (3 * (width image * height image)).

(** The 4x1 grid with the samples 9, 250, 150 and 9. *)
Definition strip_9_250_150_9 : CImg := mkImg 4 1 [9; 250; 150; 9].

(** A 3x3 grid and the same grid turned by half a turn. *)
Definition ramp_3x3 : CImg := mkImg 3 3 [1; 2; 3; 4; 5; 6; 7; 8; 9].
Definition ramp_3x3_turned : CImg := mkImg 3 3 [9; 8; 7; 6; 5; 4; 3; 2; 1].

(* ================================================================= *)
(** * Properties *)

(** ** Loops over the pixels *)

Lemma zrange_In (n x : Z) : In x (zrange n) <-> 0 <= x < n.
Proof.
  unfold zrange. rewrite in_map_iff. split.
  - intros (k & <- & Hk). apply in_seq in Hk. lia.
  - intros Hx. exists (Z.to_nat x). split; [lia|]. apply in_seq. lia.
Qed.

Section FoldRules.
Context {A S : Type} (D : A -> Prop) (P : S -> Prop) (Q : A -> S -> Prop).
Variable f : S -> A -> S.
Hypothesis step : forall s a, D a -> P s -> P (f s a) /\ Q a (f s a).
Hypothesis keep : forall s a b, D a -> D b -> P s -> Q b s -> Q b (f s a).

Lemma fold_left_keeps (l : list A) : forall s b,
  (forall a, In a l -> D a) -> D b -> P s -> Q b s ->
  P (fold_left f l s) /\ Q b (fold_left f l s).
Proof using step keep.
  induction l as [|a l IH]; intros s b Hl Hb HP HQ; simpl; [tauto|].
  apply IH; auto using in_cons.
  - apply step; auto using in_eq.
  - apply keep; auto using in_eq.
Qed.

Lemma fold_left_each (l : list A) : forall s,
  (forall a, In a l -> D a) -> P s ->
  P (fold_left f l s) /\ forall a, In a l -> Q a (fold_left f l s).
Proof using step keep.
  induction l as [|a l IH]; intros s Hl HP; simpl.
  - split; [assumption | intros ? []].
  - destruct (step s a) as [HP' HQ']; auto using in_eq.
    destruct (IH (f s a)) as [HP'' HQ'']; auto using in_cons.
    split; [assumption|]. intros b [<- | Hb]; [|auto].
    apply fold_left_keeps; auto using in_cons, in_eq.
Qed.
End FoldRules.

Lemma inside_inb {T} (img : Img T) (x y : Z) : inside img x y = true <-> inb img x y.
Proof. unfold inside, inb. rewrite !andb_true_iff. lia. Qed.

Lemma interior_inb {T} (img : Img T) (x y : Z) : interior img x y = true -> inb img x y.
Proof. unfold interior, inb. rewrite !andb_true_iff. lia. Qed.

Section LoopRules.
Context {T S : Type} (img : Img T) (body : S -> Z -> Z -> S).
Variables (P : S -> Prop) (Q : Z -> Z -> S -> Prop).
Hypothesis step : forall s x y, inb img x y -> P s -> P (body s x y) /\ Q x y (body s x y).
Hypothesis keep : forall s x y x' y',
  inb img x y -> inb img x' y' -> P s -> Q x' y' s -> Q x' y' (body s x y).

(** After the loop every pixel has been through the body, and what the
    body established at a pixel has survived the later iterations. *)
Lemma cimg_forXY_each (s : S) :
  P s -> P (cimg_forXY img body s) /\ forall x y, inb img x y -> Q x y (cimg_forXY img body s).
Proof using step keep.
  intros HP. unfold cimg_forXY.
  pose (Qrow := fun y s => forall x, 0 <= x < width img -> Q x y s).
  destruct (fold_left_each (fun y => 0 <= y < height img) P Qrow
              (fun s y => fold_left (fun s x => body s x y) (zrange (width img)) s))
    with (l := zrange (height img)) (s := s) as [HP' HQ']; auto.
  - intros s0 y Hy HP0.
    destruct (fold_left_each (fun x => 0 <= x < width img) P (fun x s => Q x y s)
                (fun s x => body s x y)) with (l := zrange (width img)) (s := s0)
      as [H1 H2]; auto.
    + intros; apply step; unfold inb; auto.
    + intros; apply (keep _ a y b y); unfold inb; auto.
    + intros a Ha; apply zrange_In; exact Ha.
    + split; [assumption|]. intros x Hx. apply H2, zrange_In, Hx.
  - intros s0 y y' Hy Hy' HP0 HQ0. unfold Qrow in *. intros x' Hx'.
    assert (Hg : forall l s1, (forall a, In a l -> 0 <= a < width img) -> P s1 -> Q x' y' s1 ->
                P (fold_left (fun s x => body s x y) l s1)
                /\ Q x' y' (fold_left (fun s x => body s x y) l s1)).
    { induction l as [|a l IH]; intros s1 Hl HP1 HQ1; simpl; [tauto|].
      apply IH; auto using in_cons.
      - apply step; unfold inb; auto using in_eq.
      - apply (keep _ a y x' y'); unfold inb; auto using in_eq. }
    apply Hg; auto. intros a Ha; apply zrange_In; exact Ha.
  - intros a Ha; apply zrange_In; exact Ha.
  - split; [assumption|]. intros x y [Hx Hy]. apply HQ'; [apply zrange_In|]; assumption.
Qed.
End LoopRules.

(** An invariant of the body is an invariant of the loop. *)
Lemma cimg_forXY_inv {T S} (img : Img T) (body : S -> Z -> Z -> S) (P : S -> Prop) (s : S) :
  (forall s x y, inb img x y -> P s -> P (body s x y)) ->
  P s -> P (cimg_forXY img body s).
Proof.
  intros Hstep HP.
  apply (cimg_forXY_each img body P (fun _ _ _ => True)); auto.
Qed.

(** ** Reading and writing pixels *)

Lemma offset_xy {T} (img : Img T) (x y : Z) :
  offset img x y 0 = Z.to_nat (x + y * width img).
Proof. unfold offset. f_equal. lia. Qed.

Lemma offset_lt {T} (img : Img T) (x y : Z) :
  wf_img img -> inb img x y -> (offset img x y 0 < length (data img))%nat.
Proof.
  intros (HW & HH & Hlen) [Hx Hy]. rewrite offset_xy, Hlen.
  apply Z2Nat.inj_lt; nia.
Qed.

Lemma offset_inj {T} (img : Img T) (x y x' y' : Z) :
  inb img x y -> inb img x' y' ->
  offset img x y 0 = offset img x' y' 0 -> x = x' /\ y = y'.
Proof.
  intros [Hx Hy] [Hx' Hy']. rewrite !offset_xy. intros Heq.
  apply Z2Nat.inj in Heq; [|nia|nia].
  assert (y = y') by nia. subst y'. lia.
Qed.

Lemma px3_set_px_eq {T} (d : T) (img : Img T) (x y : Z) (v : T) :
  wf_img img -> inb img x y -> px3 d (set_px img x y v) x y 0 = v.
Proof.
  intros Hwf Hin. unfold px3, set_px, offset; simpl. fold (offset img x y 0).
  rewrite list_lookup_insert_eq; [reflexivity | apply offset_lt; assumption].
Qed.

Lemma px3_set_px_ne {T} (d : T) (img : Img T) (x y x' y' : Z) (v : T) :
  inb img x y -> inb img x' y' -> (x, y) <> (x', y') ->
  px3 d (set_px img x y v) x' y' 0 = px3 d img x' y' 0.
Proof.
  intros Hin Hin' Hne. unfold px3, set_px, offset; simpl.
  fold (offset img x y 0). fold (offset img x' y' 0).
  rewrite list_lookup_insert_ne; [reflexivity|].
  intros Heq. apply offset_inj in Heq; [|assumption..].
  destruct Heq; congruence.
Qed.

Lemma px_set_px_eq (e : CImg) (x y v : Z) :
  wf_img e -> inb e x y -> px (set_px e x y v) x y = v.
Proof. apply (px3_set_px_eq 0). Qed.

Lemma px_set_px_ne (e : CImg) (x y x' y' v : Z) :
  inb e x y -> inb e x' y' -> (x, y) <> (x', y') ->
  px (set_px e x y v) x' y' = px e x' y'.
Proof. apply (px3_set_px_ne 0). Qed.

Lemma px_CImg_new (w h x y : Z) : px (CImg_new w h) x y = 0.
Proof.
  unfold px, px3, CImg_new; simpl.
  destruct (replicate _ _ !! _) as [v|] eqn:E; [|reflexivity].
  apply lookup_replicate in E. simpl. tauto.
Qed.

Lemma pxf_CImgFloat_new (w h x y : Z) : pxf (CImgFloat_new w h) x y = S754_zero false.
Proof.
  unfold pxf, px3, CImgFloat_new; simpl.
  destruct (replicate _ _ !! _) as [v|] eqn:E; [|reflexivity].
  apply lookup_replicate in E. simpl. tauto.
Qed.

Lemma wf_CImg_new (w h : Z) : 0 <= w -> 0 <= h -> wf_img (CImg_new w h).
Proof. intros. unfold wf_img, CImg_new; simpl. rewrite length_replicate. auto. Qed.

Lemma wf_set_px {T} (img : Img T) (x y : Z) (v : T) : wf_img img -> wf_img (set_px img x y v).
Proof. unfold wf_img, set_px; simpl. rewrite length_insert. auto. Qed.

(** ** The gradient stage leaves the frame alone *)

Lemma toGray_dims (image : CImg) :
  width (toGray image) = width image /\ height (toGray image) = height image.
Proof.
  unfold toGray.
  apply (cimg_forXY_inv image _
           (fun g : CImg => width g = width image /\ height g = height image)).
  - intros g x y _ Hg. exact Hg.
  - split; reflexivity.
Qed.

Section GradientFrame.
Variable atan2_deg : Z -> Z -> float.

(** A frame pixel keeps what the two grids held when [gradientInGray] was
    called. *)
Lemma gradientInGray_frame (image gradient : CImg) (direction : CImgFloat) (x y : Z) :
  width gradient = width image -> height gradient = height image ->
  width direction = width image -> height direction = height image ->
  inb image x y -> on_border image x y ->
  px (fst (gradientInGray atan2_deg image gradient direction)) x y = px gradient x y /\
  pxf (snd (gradientInGray atan2_deg image gradient direction)) x y = pxf direction x y.
Proof.
  intros HgW HgH HdW HdH Hin Hb. unfold gradientInGray.
  destruct (toGray_dims image) as [HW HH].
  set (gray := toGray image) in *.
  set (P := fun st : CImg * CImgFloat =>
              (width (fst st) = width image /\ height (fst st) = height image) /\
              (width (snd st) = width image /\ height (snd st) = height image) /\
              px (fst st) x y = px gradient x y /\ pxf (snd st) x y = pxf direction x y).
  assert (HP : P (cimg_forXY gray
                    (fun '(gradient0, direction0) x0 y0 =>
                       if interior gray x0 y0
                       then let gr := calculateGradient atan2_deg gray x0 y0 in
                            (set_px gradient0 x0 y0 (mag gr), set_px direction0 x0 y0 (dir gr))
                       else (gradient0, direction0)) (gradient, direction))).
  { apply cimg_forXY_inv.
    - intros [g d] x0 y0 Hin0 ((Hg1 & Hg2) & (Hd1 & Hd2) & Hpg & Hpd). simpl in *.
      destruct (interior gray x0 y0) eqn:Hint; [|unfold P; simpl; tauto].
      unfold P; simpl. repeat split; try assumption.
      + rewrite <- Hpg. apply px3_set_px_ne.
        * unfold inb in *. rewrite Hg1, Hg2, <- HW, <- HH. exact Hin0.
        * unfold inb in *. rewrite Hg1, Hg2. exact Hin.
        * unfold interior in Hint. rewrite HW, HH in Hint.
          rewrite !andb_true_iff in Hint. unfold on_border in Hb. intros [= -> ->]. lia.
      + rewrite <- Hpd. apply px3_set_px_ne.
        * unfold inb in *. rewrite Hd1, Hd2, <- HW, <- HH. exact Hin0.
        * unfold inb in *. rewrite Hd1, Hd2. exact Hin.
        * unfold interior in Hint. rewrite HW, HH in Hint.
          rewrite !andb_true_iff in Hint. unfold on_border in Hb. intros [= -> ->]. lia.
    - unfold P; simpl. tauto. }
  destruct HP as (_ & _ & H1 & H2). split; assumption.
Qed.

(** C7.  After the gradient stage every pixel on the frame of the image
    (x = 0, x = W-1, y = 0 or y = H-1) has magnitude 0 and direction 0: the
    stage assigns interior pixels only, and the grids it is given by
    [extractEdgeCanny] are freshly constructed. *)
Theorem gradientInGray_border_zero (image : CImg) (x y : Z) :
  inb image x y -> on_border image x y ->
  px (fst (gradientInGray atan2_deg image
             (CImg_new (width image) (height image))
             (CImgFloat_new (width image) (height image)))) x y = 0 /\
  pxf (snd (gradientInGray atan2_deg image
              (CImg_new (width image) (height image))
              (CImgFloat_new (width image) (height image)))) x y = S754_zero false.
Proof.
  intros Hin Hb.
  destruct (gradientInGray_frame image (CImg_new (width image) (height image))
              (CImgFloat_new (width image) (height image)) x y) as [H1 H2];
    try reflexivity; try assumption.
  rewrite H1, H2, px_CImg_new, pxf_CImgFloat_new. split; reflexivity.
Qed.

End GradientFrame.

Lemma gradientInGray_border_zero_witness :
  px (fst (gradientInGray zero_atan (rgb_flat 4 3 100)
             (CImg_new 4 3) (CImgFloat_new 4 3))) 3 1 = 0 /\
  pxf (snd (gradientInGray zero_atan (rgb_flat 4 3 100)
              (CImg_new 4 3) (CImgFloat_new 4 3))) 3 1 = S754_zero false.
Proof.
  apply (gradientInGray_border_zero zero_atan (rgb_flat 4 3 100) 3 1).
  - unfold inb; simpl; lia.
  - unfold on_border; simpl; lia.
Defined.

(** ** Marking *)

Lemma mark_visits_S (fuel : nat) (e : CImg) (l : list (Z * Z)) (x y low : Z) :
  mark_visits (S fuel) e l x y low =
  fold_left (visit_neighbour fuel x y low) offsets9
    (Some (set_px e x y 255, (x, y) :: l)).
Proof. reflexivity. Qed.

Lemma px_255_lookup (e : CImg) (x y : Z) :
  px e x y = 255 <-> data e !! offset e x y 0 = Some 255.
Proof.
  unfold px, px3. destruct (data e !! offset e x y 0) as [v|]; simpl.
  - split; [intros ->; reflexivity | intros [= ->]; reflexivity].
  - split; [lia | discriminate].
Qed.

Lemma px_lookup (e : CImg) (x y : Z) :
  wf_img e -> inb e x y -> data e !! offset e x y 0 = Some (px e x y).
Proof.
  intros Hwf Hin. unfold px, px3.
  destruct (lookup_lt_is_Some_2 (data e) (offset e x y 0)) as [v Hv].
  - apply offset_lt; assumption.
  - rewrite Hv. reflexivity.
Qed.

Lemma offset_dims {T} (e e' : Img T) (x y : Z) :
  width e' = width e -> offset e' x y 0 = offset e x y 0.
Proof. intros H. rewrite !offset_xy, H. reflexivity. Qed.

Lemma bytes_px (e : CImg) (x y : Z) : bytes e -> 0 <= px e x y <= 255.
Proof.
  intros Hb. unfold px, px3.
  destruct (data e !! offset e x y 0) as [v|] eqn:E; simpl; [|lia].
  unfold bytes in Hb. rewrite Forall_forall in Hb.
  apply Hb. eapply list_elem_of_lookup_2. exact E.
Qed.

Lemma unmarked_insert (l : list Z) : forall (i : nat) (v w : Z),
  l !! i = Some v ->
  (unmarked (<[i:=w]> l) + (if (v =? 255)%Z then 0 else 1)
   = unmarked l + (if (w =? 255)%Z then 0 else 1))%nat.
Proof.
  induction l as [|a l IH]; intros [|i] v w Hl; simpl in *; try discriminate.
  - injection Hl as ->. lia.
  - specialize (IH i v w Hl). lia.
Qed.

Lemma unmarked_le_length (l : list Z) : (unmarked l <= length l)%nat.
Proof. induction l as [|a l IH]; simpl; [lia|]. destruct (a =? 255); lia. Qed.

Lemma unmarked_pos (l : list Z) : forall (i : nat) (v : Z),
  l !! i = Some v -> v <> 255 -> (0 < unmarked l)%nat.
Proof.
  induction l as [|a l IH]; intros [|i] v Hl Hv; simpl in *; try discriminate.
  - injection Hl as ->. destruct (v =? 255) eqn:E; [lia | lia].
  - specialize (IH i v Hl Hv). lia.
Qed.

Lemma marks_refl (e : CImg) : marks e e [].
Proof.
  constructor; auto; try (simpl; lia); try constructor; intros x y [].
Qed.

Lemma marks_trans (e e1 e2 : CImg) (new1 new2 : list (Z * Z)) :
  marks e e1 new1 -> marks e1 e2 new2 -> marks e e2 (new2 ++ new1).
Proof.
  intros H1 H2. destruct H1 as [W1 Hh1 L1 B1 K1 N1 C1 M1], H2 as [W2 Hh2 L2 B2 K2 N2 C2 M2].
  constructor; try congruence; auto.
  - apply List.NoDup_app; auto.
    intros [x y] Hin2 Hin1.
    destruct (M1 x y Hin1) as (_ & _ & Ha). destruct (M2 x y Hin2) as (_ & Hb & _).
    contradiction.
  - rewrite length_app. lia.
  - intros x y Hin. apply in_app_or in Hin. destruct Hin as [Hin | Hin].
    + destruct (M2 x y Hin) as (Hi & Hn & Hm). split; [|split].
      * unfold inb in *. rewrite <- W1, <- Hh1. tauto.
      * intros Hc. apply Hn. apply px_255_lookup.
        rewrite (offset_dims e e1) by assumption.
        apply K1. apply px_255_lookup. exact Hc.
      * exact Hm.
    + destruct (M1 x y Hin) as (Hi & Hn & Hm). split; [|split]; try tauto.
      apply px_255_lookup. rewrite (offset_dims e1 e2) by assumption.
      apply K2. apply px_255_lookup. exact Hm.
Qed.

Lemma marks_set_255 (e : CImg) (x y : Z) :
  wf_img e -> inb e x y -> px e x y <> 255 -> marks e (set_px e x y 255) [(x, y)].
Proof.
  intros Hwf Hin Hne. pose proof (px_lookup e x y Hwf Hin) as Hl.
  constructor; simpl; auto.
  - apply length_insert.
  - intros Hb. unfold bytes; simpl. apply Forall_insert; [exact Hb | lia].
  - intros i Hi. destruct (decide (offset e x y 0 = i)) as [<- | Hd].
    + apply list_lookup_insert_eq. apply offset_lt; assumption.
    + rewrite list_lookup_insert_ne; assumption.
  - constructor; [intros [] | constructor].
  - pose proof (unmarked_insert (data e) _ _ 255 Hl) as Hu.
    destruct (px e x y =? 255) eqn:E; [lia|]. simpl in Hu. lia.
  - intros x' y' [[= <- <-] | []]. split; [|split]; try tauto.
    apply (px3_set_px_eq 0 e x y 255); assumption.
Qed.

Lemma marks_set_0 (e : CImg) (x y : Z) :
  wf_img e -> inb e x y -> px e x y <> 255 -> marks e (set_px e x y 0) [].
Proof.
  intros Hwf Hin Hne. pose proof (px_lookup e x y Hwf Hin) as Hl.
  constructor; simpl; auto.
  - apply length_insert.
  - intros Hb. unfold bytes; simpl. apply Forall_insert; [exact Hb | lia].
  - intros i Hi. destruct (decide (offset e x y 0 = i)) as [<- | Hd].
    + rewrite Hl in Hi. congruence.
    + rewrite list_lookup_insert_ne; assumption.
  - constructor.
  - pose proof (unmarked_insert (data e) _ _ 0 Hl) as Hu.
    destruct (px e x y =? 255) eqn:E; [lia|]. simpl in Hu. lia.
  - intros x' y' [].
Qed.

Lemma marks_wf (e e' : CImg) (new : list (Z * Z)) :
  marks e e' new -> wf_img e -> wf_img e'.
Proof.
  intros [W1 H1 L1 _ _ _ _ _] (HW & HH & HL). unfold wf_img.
  rewrite W1, H1, L1. auto.
Qed.

Lemma marks_px_255 (e e' : CImg) (new : list (Z * Z)) (x y : Z) :
  marks e e' new -> px e x y = 255 -> px e' x y = 255.
Proof.
  intros H Hp. apply px_255_lookup. rewrite (offset_dims e e') by apply H.
  apply H. apply px_255_lookup. exact Hp.
Qed.

Lemma marks_unmarked_le (e e' : CImg) (new : list (Z * Z)) :
  marks e e' new -> (unmarked (data e') <= unmarked (data e))%nat.
Proof. intros H. pose proof (mk_count _ _ _ H). lia. Qed.

(** [mark] with fuel for every sample that is not yet 255 returns; its
    calls are then described by [marks].  *)
Lemma mark_visits_spec (fuel : nat) : forall (e : CImg) (l : list (Z * Z)) (x y low : Z),
  wf_img e -> inb e x y -> px e x y <> 255 ->
  (unmarked (data e) <= fuel)%nat ->
  exists e' new,
    mark_visits fuel e l x y low = Some (e', new ++ l) /\
    marks e e' new /\ In (x, y) new.
Proof.
  induction fuel as [|fuel IH]; intros e l x y low Hwf Hin Hne Hfuel.
  - exfalso. pose proof (unmarked_pos _ _ _ (px_lookup e x y Hwf Hin) Hne). lia.
  - rewrite mark_visits_S.
    pose proof (marks_set_255 e x y Hwf Hin Hne) as H0.
    assert (Hstep : forall (ds : list (Z * Z)) (e1 : CImg) (new1 : list (Z * Z)),
               marks e e1 new1 -> In (x, y) new1 ->
               exists e' new,
                 fold_left (visit_neighbour fuel x y low) ds (Some (e1, new1 ++ l))
                 = Some (e', new ++ l) /\ marks e e' new /\ In (x, y) new).
    { induction ds as [|d ds IHds]; intros e1 new1 H1 Hin1; simpl.
      - exists e1, new1. auto.
      - destruct (inside e1 (x + fst d) (y + snd d)
                  && negb (px e1 (x + fst d) (y + snd d) =? 255)
                  && (low <=? px e1 (x + fst d) (y + snd d))) eqn:Hc.
        + rewrite !andb_true_iff in Hc. destruct Hc as [[Hc1 Hc2] Hc3].
          apply inside_inb in Hc1. apply negb_true_iff, Z.eqb_neq in Hc2.
          destruct (IH e1 (new1 ++ l) (x + fst d) (y + snd d) low) as (e2 & new2 & Hm & H2 & _).
          * eapply marks_wf; eassumption.
          * exact Hc1.
          * exact Hc2.
          * pose proof (mk_count _ _ _ H1) as Hcnt.
            assert (0 < length new1)%nat by (destruct new1; [destruct Hin1 | simpl; lia]).
            lia.
          * rewrite Hm, app_assoc. apply IHds.
            -- eapply marks_trans; eassumption.
            -- apply in_or_app. right. exact Hin1.
        + apply IHds; assumption. }
    apply (Hstep offsets9 (set_px e x y 255) [(x, y)]); [exact H0 | left; reflexivity].
Qed.

(** [mark_visits] computes the grid of [mark]. *)
Lemma mark_S (fuel : nat) (e : CImg) (x y low : Z) :
  mark (S fuel) e x y low =
  fold_left (mark_neighbour fuel x y low) offsets9 (Some (set_px e x y 255)).
Proof. reflexivity. Qed.

Lemma mark_forget (fuel : nat) : forall (e : CImg) (l : list (Z * Z)) (x y low : Z),
  mark fuel e x y low = forget (mark_visits fuel e l x y low).
Proof.
  induction fuel as [|fuel IH]; intros e l x y low; [reflexivity|].
  rewrite mark_S, mark_visits_S.
  assert (Hgen : forall ds st1 st2, st1 = forget st2 ->
             fold_left (mark_neighbour fuel x y low) ds st1
             = forget (fold_left (visit_neighbour fuel x y low) ds st2)).
  { induction ds as [|d ds IHds]; intros s1 s2 Hs; simpl; [exact Hs|].
    apply IHds. subst s1. destruct s2 as [[e2 l2]|]; simpl; [|reflexivity].
    destruct (inside e2 (x + fst d) (y + snd d)
              && negb (px e2 (x + fst d) (y + snd d) =? 255)
              && (low <=? px e2 (x + fst d) (y + snd d))); [apply IH | reflexivity]. }
  apply Hgen. reflexivity.
Qed.

Lemma cimg_forXY_sim {T S1 S2} (img : Img T) (f1 : S1 -> Z -> Z -> S1)
    (f2 : S2 -> Z -> Z -> S2) (R : S1 -> S2 -> Prop) (s1 : S1) (s2 : S2) :
  (forall s1 s2 x y, R s1 s2 -> R (f1 s1 x y) (f2 s2 x y)) ->
  R s1 s2 -> R (cimg_forXY img f1 s1) (cimg_forXY img f2 s2).
Proof.
  intros Hstep. unfold cimg_forXY.
  generalize (zrange (height img)) as ys. intros ys. revert s1 s2.
  induction ys as [|y ys IHy]; intros s1 s2 HR; simpl; [exact HR|].
  apply IHy. generalize (zrange (width img)) as xs. intros xs. revert s1 s2 HR.
  induction xs as [|x xs IHx]; intros s1 s2 HR; simpl; [exact HR|].
  apply IHx, Hstep, HR.
Qed.

Lemma track_step_forget (fuel : nat) (high low : Z) (st : option (CImg * list (Z * Z)))
    (x y : Z) :
  track_step fuel high low (forget st) x y
  = forget (track_step_visits fuel high low st x y).
Proof.
  destruct st as [[e l]|]; simpl; [|reflexivity].
  destruct ((high <=? px e x y) && negb (px e x y =? 255)); [apply mark_forget|].
  destruct (px e x y <? low); reflexivity.
Qed.

(** ** The tracking loop *)

Lemma track_step_visits_spec (fuel : nat) (high low : Z) (e : CImg)
    (l : list (Z * Z)) (x y : Z) :
  wf_img e -> inb e x y -> low <= 255 -> (unmarked (data e) <= fuel)%nat ->
  exists e' new,
    track_step_visits fuel high low (Some (e, l)) x y = Some (e', new ++ l) /\
    marks e e' new.
Proof.
  intros Hwf Hin Hlow Hfuel. simpl.
  destruct ((high <=? px e x y) && negb (px e x y =? 255)) eqn:Hc.
  - rewrite andb_true_iff in Hc. destruct Hc as [_ Hc].
    apply negb_true_iff, Z.eqb_neq in Hc.
    destruct (mark_visits_spec fuel e l x y low Hwf Hin Hc Hfuel) as (e' & new & H1 & H2 & _).
    exists e', new. auto.
  - destruct (px e x y <? low) eqn:Hl.
    + apply Z.ltb_lt in Hl. exists (set_px e x y 0), []. split; [reflexivity|].
      apply marks_set_0; [assumption..|lia].
    + exists e, []. split; [reflexivity | apply marks_refl].
Qed.

Lemma track_loop_spec (e : CImg) (high low : Z) :
  wf_img e -> low <= 255 ->
  exists e' visits,
    cimg_forXY e (track_step_visits (mark_fuel e) high low) (Some (e, []))
    = Some (e', visits) /\ marks e e' visits.
Proof.
  intros Hwf Hlow.
  apply (cimg_forXY_inv e _
           (fun st => exists e' visits, st = Some (e', visits) /\ marks e e' visits)).
  - intros st x y Hin (e1 & l1 & -> & H1).
    destruct (track_step_visits_spec (mark_fuel e) high low e1 l1 x y)
      as (e2 & new & Hs & H2).
    + eapply marks_wf; eassumption.
    + unfold inb in *. rewrite (mk_width _ _ _ H1), (mk_height _ _ _ H1). exact Hin.
    + exact Hlow.
    + pose proof (marks_unmarked_le _ _ _ H1). pose proof (unmarked_le_length (data e)).
      unfold mark_fuel. lia.
    + exists e2, (new ++ l1). split; [exact Hs|]. eapply marks_trans; eassumption.
  - exists e, []. split; [reflexivity | apply marks_refl].
Qed.

Lemma to_uchar_range (f : spec_float) : 0 <= to_uchar f < 256.
Proof. unfold to_uchar. apply Z.mod_pos_bound. lia. Qed.

Lemma numPixels_small (e : CImg) :
  0 <= width e * height e < 2 ^ 32 -> numPixels e = width e * height e.
Proof. intros H. unfold numPixels, u32. apply Z.mod_small. exact H. Qed.

(** A run of [trackEdge] on a grid with at least one pixel returns. *)
Lemma trackEdge_returns (e : CImg) :
  wf_img e -> 0 < width e * height e < 2 ^ 31 ->
  exists e' visits,
    marks e e' visits /\
    cimg_forXY e (track_step (mark_fuel e) (highThreshold_of e) (lowThreshold_of e))
      (Some e) = Some e' /\
    trackEdge_visits e = Returned (clear_unselected e', visits) /\
    trackEdge e = Returned (clear_unselected e').
Proof.
  intros Hwf Hn.
  assert (Hnz : (numPixels e =? 0) = false).
  { rewrite numPixels_small by lia. apply Z.eqb_neq. lia. }
  destruct (track_loop_spec e (highThreshold_of e) (lowThreshold_of e) Hwf)
    as (e' & visits & Hloop & Hm).
  { pose proof (to_uchar_range (fadd (mean_of e) (fmul (f_of_Z 1) (stdDev_of e)))).
    unfold lowThreshold_of. lia. }
  assert (Hsim : cimg_forXY e (track_step (mark_fuel e) (highThreshold_of e) (lowThreshold_of e))
                   (Some e)
                 = forget (cimg_forXY e
                      (track_step_visits (mark_fuel e) (highThreshold_of e) (lowThreshold_of e))
                      (Some (e, [])))).
  { apply (cimg_forXY_sim e _ _ (fun s1 s2 => s1 = forget s2)); [|reflexivity].
    intros s1 s2 x y ->. apply track_step_forget. }
  rewrite Hloop in Hsim. simpl in Hsim.
  exists e', visits. split; [exact Hm|]. split; [exact Hsim|]. split.
  - unfold trackEdge_visits. rewrite Hnz, Hloop. reflexivity.
  - unfold trackEdge. rewrite Hnz, Hsim. reflexivity.
Qed.

(** ** The clean-up loop *)

Lemma clear_unselected_spec (e : CImg) :
  wf_img e ->
  (width (clear_unselected e) = width e /\
   height (clear_unselected e) = height e /\
   length (data (clear_unselected e)) = length (data e)) /\
  forall x y, inb e x y ->
    px (clear_unselected e) x y = if px e x y =? 255 then 255 else 0.
Proof.
  intros Hwf. unfold clear_unselected.
  set (target := fun x y => if px e x y =? 255 then 255 else 0).
  set (P := fun s : CImg =>
              (width s = width e /\ height s = height e /\
               length (data s) = length (data e)) /\
              forall x y, inb e x y -> px s x y = px e x y \/ px s x y = target x y).
  assert (Hwfs : forall s, P s -> wf_img s).
  { intros s ((Hw & Hh & Hl) & _). destruct Hwf as (? & ? & ?).
    unfold wf_img. rewrite Hw, Hh, Hl. auto. }
  assert (Hinb : forall s x y, P s -> inb e x y -> inb s x y).
  { intros s x y ((Hw & Hh & _) & _) Hin. unfold inb in *. rewrite Hw, Hh. exact Hin. }
  assert (Htarget : forall x y, target x y = 255 \/ target x y = 0).
  { intros x y. unfold target. destruct (px e x y =? 255); auto. }
  destruct (cimg_forXY_each e
              (fun s x y => if negb (px s x y =? 255) then set_px s x y 0 else s)
              P (fun x y s => px s x y = target x y)) with (s := e) as [HP HQ].
  - (* the body at pixel (x, y) *)
    intros s x y Hin HPs. pose proof HPs as (Hdims & Hpx).
    destruct (px s x y =? 255) eqn:E; simpl.
    + split; [exact HPs|]. apply Z.eqb_eq in E.
      destruct (Hpx x y Hin) as [H | H]; [|exact H].
      unfold target. rewrite <- H, E. reflexivity.
    + apply Z.eqb_neq in E. split.
      * split; [simpl; rewrite length_insert; exact Hdims|].
        intros x' y' Hin'. destruct (decide ((x, y) = (x', y'))) as [[= <- <-] | Hne].
        -- right. rewrite (px_set_px_eq s x y 0) by auto.
           destruct (Hpx x y Hin) as [H | H].
           ++ unfold target. rewrite <- H. apply Z.eqb_neq in E. rewrite E. reflexivity.
           ++ destruct (Htarget x y); congruence.
        -- rewrite (px_set_px_ne s x y x' y' 0) by auto. apply Hpx, Hin'.
      * rewrite (px_set_px_eq s x y 0) by auto.
        destruct (Hpx x y Hin) as [H | H].
        -- unfold target. rewrite <- H. apply Z.eqb_neq in E. rewrite E. reflexivity.
        -- destruct (Htarget x y); congruence.
  - (* a finished pixel stays finished *)
    intros s x y x' y' Hin Hin' HPs HQs.
    destruct (px s x y =? 255) eqn:E; simpl; [exact HQs|].
    apply Z.eqb_neq in E.
    destruct (decide ((x, y) = (x', y'))) as [[= <- <-] | Hne].
    + rewrite (px_set_px_eq s x y 0) by auto.
      destruct (Htarget x y); congruence.
    + rewrite (px_set_px_ne s x y x' y' 0) by auto. exact HQs.
  - split; [tauto|]. intros x y _. left. reflexivity.
  - split; [apply HP | exact HQ].
Qed.

(** Two grids of the same size with the same pixels are the same grid. *)
Lemma img_ext (e e' : CImg) :
  wf_img e -> wf_img e' -> width e' = width e -> height e' = height e ->
  (forall x y, inb e x y -> px e' x y = px e x y) -> e' = e.
Proof.
  intros Hwf Hwf' HW HH Hpx. destruct e as [w h d], e' as [w' h' d']. simpl in *. subst w' h'.
  f_equal. apply list_eq. intros i.
  destruct Hwf as (Hw & Hh & Hl), Hwf' as (_ & _ & Hl'). simpl in *.
  destruct (decide (i < length d)%nat) as [Hi | Hi].
  - assert (Hwpos : 0 < w) by nia.
    set (x := Z.of_nat i mod w). set (y := Z.of_nat i / w).
    assert (Hx : 0 <= x < w) by (apply Z.mod_pos_bound; lia).
    assert (Hxy : Z.of_nat i = x + y * w).
    { unfold x, y. rewrite (Z.div_mod (Z.of_nat i) w) at 1 by lia. lia. }
    assert (Hy : 0 <= y < h) by nia.
    assert (Hin : inb (mkImg w h d) x y) by (unfold inb; simpl; lia).
    pose proof (px_lookup (mkImg w h d) x y) as H1.
    pose proof (px_lookup (mkImg w h d') x y) as H2.
    rewrite !offset_xy in H1, H2. simpl in H1, H2.
    replace (Z.to_nat (x + y * w)) with i in H1, H2 by lia.
    rewrite H1, H2; [f_equal; apply Hpx; exact Hin | | | | ];
      first [exact Hin | unfold wf_img; simpl; auto].
  - rewrite !lookup_ge_None_2; [reflexivity | lia | lia].
Qed.

(** What [trackEdge] returns on a grid with at least one pixel: the grid
    [e'] left by the tracking loop with every pixel other than 255 cleared. *)
Lemma trackEdge_result (edge : CImg) :
  wf_img edge -> 0 < width edge * height edge < 2 ^ 31 ->
  exists e' g,
    cimg_forXY edge
      (track_step (mark_fuel edge) (highThreshold_of edge) (lowThreshold_of edge))
      (Some edge) = Some e' /\
    trackEdge edge = Returned g /\
    wf_img g /\
    width g = width edge /\ height g = height edge /\
    (forall x y, inb edge x y -> px g x y = if px e' x y =? 255 then 255 else 0) /\
    (forall x y, inb edge x y -> px g x y = 0 \/ px g x y = 255).
Proof.
  intros Hwf Hn.
  destruct (trackEdge_returns edge Hwf Hn) as (e' & visits & Hm & Hloop & _ & Hret).
  pose proof (marks_wf _ _ _ Hm Hwf) as Hwf'.
  destruct (clear_unselected_spec e' Hwf') as ((Hw & Hh & Hlen) & Hpx).
  assert (Hwfg : wf_img (clear_unselected e')).
  { destruct Hwf' as (? & ? & ?). unfold wf_img. rewrite Hw, Hh, Hlen. auto. }
  assert (Hpx' : forall x y, inb edge x y ->
            px (clear_unselected e') x y = if px e' x y =? 255 then 255 else 0).
  { intros x y Hin. apply Hpx. unfold inb in *.
    rewrite (mk_width _ _ _ Hm), (mk_height _ _ _ Hm). exact Hin. }
  exists e', (clear_unselected e'). split; [exact Hloop|]. split; [exact Hret|].
  split; [exact Hwfg|].
  rewrite Hw, Hh, (mk_width _ _ _ Hm), (mk_height _ _ _ Hm).
  split; [reflexivity|]. split; [reflexivity|]. split; [exact Hpx'|].
  intros x y Hin. rewrite Hpx' by exact Hin.
  destruct (px e' x y =? 255); auto.
Qed.

(** C5.  For every edge grid with at least one pixel, [trackEdge] returns
    a grid of the same size in which every pixel is 0 or 255: a pixel that
    the tracking loop left different from 255 is forced to 0 by the last
    loop, and a pixel it left at 255 stays. *)
Theorem trackEdge_binary (edge : CImg) :
  wf_img edge -> 0 < width edge * height edge < 2 ^ 31 ->
  exists e' g,
    cimg_forXY edge
      (track_step (mark_fuel edge) (highThreshold_of edge) (lowThreshold_of edge))
      (Some edge) = Some e' /\
    trackEdge edge = Returned g /\
    width g = width edge /\ height g = height edge /\
    (forall x y, inb edge x y -> px g x y = if px e' x y =? 255 then 255 else 0) /\
    (forall x y, inb edge x y -> px g x y = 0 \/ px g x y = 255).
Proof.
  intros Hwf Hn.
  destruct (trackEdge_result edge Hwf Hn) as (e' & g & H1 & H2 & _ & H3).
  exists e', g. auto.
Qed.

Lemma trackEdge_binary_witness :
  exists e' g,
    cimg_forXY strip_9_200_255
      (track_step (mark_fuel strip_9_200_255) (highThreshold_of strip_9_200_255)
         (lowThreshold_of strip_9_200_255))
      (Some strip_9_200_255) = Some e' /\
    trackEdge strip_9_200_255 = Returned g /\
    width g = width strip_9_200_255 /\ height g = height strip_9_200_255 /\
    (forall x y, inb strip_9_200_255 x y ->
       px g x y = if px e' x y =? 255 then 255 else 0) /\
    (forall x y, inb strip_9_200_255 x y -> px g x y = 0 \/ px g x y = 255).
Proof.
  apply (trackEdge_binary strip_9_200_255).
  - unfold wf_img; simpl; lia.
  - simpl; lia.
Defined.

(** C4 as the code has it.  On a grid without pixels [trackEdge] performs
    no check: the summing loop has nothing to add and the unsigned division
    [sum / numPixels] of the mean is reached with the divisor 0. *)
Theorem trackEdge_empty_divides_by_zero (edge : CImg) :
  width edge * height edge = 0 -> trackEdge edge = DivisionByZero.
Proof.
  intros H. unfold trackEdge, numPixels. rewrite H. reflexivity.
Qed.

Lemma trackEdge_empty_divides_by_zero_witness :
  trackEdge (mkImg 0 5 []) = DivisionByZero.
Proof. apply trackEdge_empty_divides_by_zero. reflexivity. Defined.

(** C10.  The recursion of [mark] ends, and no pixel is marked twice:
    whenever [mark] is entered at a pixel that is not 255 with fuel for every
    sample that is not yet 255 it returns; in a run of [trackEdge] on a grid
    with at least one pixel the calls of [mark] are entered at pairwise
    different pixels inside the grid, none of which was 255 in the input, so
    there are at most as many calls as the input has samples other than
    255. *)
Theorem mark_once_and_terminates (edge : CImg) :
  wf_img edge -> 0 < width edge * height edge < 2 ^ 31 ->
  (forall fuel x y low,
     inb edge x y -> px edge x y <> 255 -> (unmarked (data edge) <= fuel)%nat ->
     exists e', mark fuel edge x y low = Some e') /\
  exists g visits,
    trackEdge_visits edge = Returned (g, visits) /\
    trackEdge edge = Returned g /\
    List.NoDup visits /\
    (length visits <= unmarked (data edge))%nat /\
    (unmarked (data edge) <= Z.to_nat (width edge * height edge))%nat /\
    forall x y, In (x, y) visits -> inb edge x y /\ px edge x y <> 255.
Proof.
  intros Hwf Hn. split.
  - intros fuel x y low Hin Hne Hfuel.
    destruct (mark_visits_spec fuel edge [] x y low Hwf Hin Hne Hfuel) as (e' & new & H & _).
    exists e'. rewrite (mark_forget fuel edge [] x y low), H. reflexivity.
  - destruct (trackEdge_returns edge Hwf Hn) as (e' & visits & Hm & _ & Hv & Hret).
    exists (clear_unselected e'), visits.
    split; [exact Hv|]. split; [exact Hret|]. split; [apply Hm|].
    split; [pose proof (mk_count _ _ _ Hm); lia|].
    split.
    + pose proof (unmarked_le_length (data edge)). destruct Hwf as (_ & _ & Hl). lia.
    + intros x y Hin. destruct (mk_new _ _ _ Hm x y Hin) as (H1 & H2 & _). auto.
Qed.

Lemma mark_once_and_terminates_witness :
  exists g visits,
    trackEdge_visits strip_9_200_255 = Returned (g, visits) /\
    trackEdge strip_9_200_255 = Returned g /\
    List.NoDup visits /\
    (length visits <= unmarked (data strip_9_200_255))%nat /\
    (unmarked (data strip_9_200_255)
     <= Z.to_nat (width strip_9_200_255 * height strip_9_200_255))%nat /\
    forall x y, In (x, y) visits ->
      inb strip_9_200_255 x y /\ px strip_9_200_255 x y <> 255.
Proof.
  apply (mark_once_and_terminates strip_9_200_255).
  - unfold wf_img; simpl; lia.
  - simpl; lia.
Defined.

(** ** When a second run changes the grid *)

Lemma set_px_same (e : CImg) (x y : Z) :
  wf_img e -> inb e x y -> set_px e x y (px e x y) = e.
Proof.
  intros Hwf Hin. destruct e as [w h d]. unfold set_px. simpl. f_equal.
  apply list_insert_id. apply (px_lookup (mkImg w h d) x y Hwf Hin).
Qed.

Lemma clear_unselected_binary (e : CImg) : wf_img e -> binary e -> clear_unselected e = e.
Proof.
  intros Hwf Hb. destruct (clear_unselected_spec e Hwf) as ((Hw & Hh & Hl) & Hpx).
  apply img_ext; auto.
  - destruct Hwf as (? & ? & ?). unfold wf_img. rewrite Hw, Hh, Hl. auto.
  - intros x y Hin. rewrite Hpx by exact Hin.
    destruct (Hb x y Hin) as [H | H]; rewrite H; reflexivity.
Qed.

(** A grid of 0 and 255 whose high threshold is not 0 comes back from
    [trackEdge] as it went in. *)
Lemma trackEdge_binary_fixed (e : CImg) :
  wf_img e -> binary e -> 0 < width e * height e < 2 ^ 31 ->
  highThreshold_of e <> 0 -> trackEdge e = Returned e.
Proof.
  intros Hwf Hb Hn Hhigh.
  assert (Hnz : (numPixels e =? 0) = false).
  { rewrite numPixels_small by lia. apply Z.eqb_neq. lia. }
  pose proof (to_uchar_range (fadd (mean_of e) (fmul (f_of_Z 2) (stdDev_of e)))) as Hh.
  pose proof (to_uchar_range (fadd (mean_of e) (fmul (f_of_Z 1) (stdDev_of e)))) as Hl.
  fold (highThreshold_of e) in Hh. fold (lowThreshold_of e) in Hl.
  unfold trackEdge. rewrite Hnz.
  assert (Hloop : cimg_forXY e
                    (track_step (mark_fuel e) (highThreshold_of e) (lowThreshold_of e))
                    (Some e) = Some e).
  { apply (cimg_forXY_inv e _ (fun st => st = Some e)); [|reflexivity].
    intros st x y Hin ->. simpl.
    destruct (Hb x y Hin) as [H0 | H255].
    - assert (Hs : set_px e x y 0 = e).
      { pose proof (set_px_same e x y Hwf Hin) as Hs. rewrite H0 in Hs. exact Hs. }
      rewrite H0.
      replace (highThreshold_of e <=? 0) with false by (symmetry; apply Z.leb_gt; lia).
      simpl. destruct (0 <? lowThreshold_of e); [|reflexivity].
      rewrite Hs. reflexivity.
    - rewrite H255. rewrite andb_false_r.
      replace (255 <? lowThreshold_of e) with false by (symmetry; apply Z.ltb_ge; lia).
      reflexivity. }
  rewrite Hloop, clear_unselected_binary by assumption. reflexivity.
Qed.

(** A second run leaves the result of a first run alone unless the high
    threshold of that result is 0. *)
Lemma trackEdge_second_run (edge g : CImg) :
  wf_img edge -> 0 < width edge * height edge < 2 ^ 31 ->
  trackEdge edge = Returned g -> highThreshold_of g <> 0 ->
  trackEdge g = Returned g.
Proof.
  intros Hwf Hn Hg Hhigh.
  destruct (trackEdge_result edge Hwf Hn) as (e' & g' & _ & Hg' & Hwfg & Hw & Hh & _ & Hbin).
  rewrite Hg in Hg'. injection Hg' as <-.
  apply trackEdge_binary_fixed; auto.
  - intros x y Hin. apply Hbin. unfold inb in *. rewrite <- Hw, <- Hh. exact Hin.
  - rewrite Hw, Hh. exact Hn.
Qed.

(** When the high threshold is 0 every pixel is taken for a strong edge:
    the whole grid comes back 255. *)
Lemma trackEdge_high_zero (e : CImg) :
  wf_img e -> bytes e -> 0 < width e * height e < 2 ^ 31 ->
  highThreshold_of e = 0 ->
  trackEdge e
  = Returned (mkImg (width e) (height e)
                (replicate (Z.to_nat (width e * height e)) 255)).
Proof.
  intros Hwf Hb Hn Hhigh.
  assert (Hnz : (numPixels e =? 0) = false).
  { rewrite numPixels_small by lia. apply Z.eqb_neq. lia. }
  pose proof (to_uchar_range (fadd (mean_of e) (fmul (f_of_Z 1) (stdDev_of e)))) as Hl.
  fold (lowThreshold_of e) in Hl.
  set (low := lowThreshold_of e) in *.
  set (P := fun st : option (CImg * list (Z * Z)) =>
              exists e' l, st = Some (e', l) /\ marks e e' l).
  set (Q := fun (x y : Z) (st : option (CImg * list (Z * Z))) =>
              exists e' l, st = Some (e', l) /\ px e' x y = 255).
  destruct (cimg_forXY_each e (track_step_visits (mark_fuel e) 0 low) P Q)
    with (s := Some (e, @nil (Z * Z))) as [HP HQ].
  - intros st x y Hin (e1 & l1 & -> & H1).
    pose proof (marks_wf _ _ _ H1 Hwf) as Hwf1.
    assert (Hin1 : inb e1 x y).
    { unfold inb in *. rewrite (mk_width _ _ _ H1), (mk_height _ _ _ H1). exact Hin. }
    assert (Hfuel : (unmarked (data e1) <= mark_fuel e)%nat).
    { pose proof (marks_unmarked_le _ _ _ H1). pose proof (unmarked_le_length (data e)).
      unfold mark_fuel. lia. }
    pose proof (bytes_px e1 x y (mk_bytes _ _ _ H1 Hb)) as Hpx.
    unfold track_step_visits. destruct (px e1 x y =? 255) eqn:E255.
    + apply Z.eqb_eq in E255. cbn [negb]. rewrite andb_false_r.
      replace (px e1 x y <? low) with false by (symmetry; apply Z.ltb_ge; lia).
      split; [exists e1, l1; auto | exists e1, l1; auto].
    + apply Z.eqb_neq in E255.
      replace (0 <=? px e1 x y) with true by (symmetry; apply Z.leb_le; lia).
      cbn [negb andb].
      destruct (mark_visits_spec (mark_fuel e) e1 l1 x y low Hwf1 Hin1 E255 Hfuel)
        as (e2 & new & Hmv & H2 & Hinnew).
      rewrite Hmv. split.
      * exists e2, (new ++ l1). split; [reflexivity|]. eapply marks_trans; eassumption.
      * exists e2, (new ++ l1). split; [reflexivity|].
        apply (mk_new _ _ _ H2 x y Hinnew).
  - intros st x y x' y' Hin Hin' (e1 & l1 & -> & H1) (e1' & l1' & [= <- <-] & Hq).
    pose proof (marks_wf _ _ _ H1 Hwf) as Hwf1.
    assert (Hin1 : inb e1 x y).
    { unfold inb in *. rewrite (mk_width _ _ _ H1), (mk_height _ _ _ H1). exact Hin. }
    assert (Hfuel : (unmarked (data e1) <= mark_fuel e)%nat).
    { pose proof (marks_unmarked_le _ _ _ H1). pose proof (unmarked_le_length (data e)).
      unfold mark_fuel. lia. }
    destruct (track_step_visits_spec (mark_fuel e) 0 low e1 l1 x y Hwf1 Hin1)
      as (e2 & new & Hs & H2); [lia | exact Hfuel |].
    rewrite Hs. exists e2, (new ++ l1). split; [reflexivity|].
    eapply marks_px_255; eassumption.
  - exists e, []. split; [reflexivity | apply marks_refl].
  - destruct HP as (e' & l & Hloop & Hm).
    pose proof (marks_wf _ _ _ Hm Hwf) as Hwf'.
    assert (Hall : forall x y, inb e x y -> px e' x y = 255).
    { intros x y Hin. destruct (HQ x y Hin) as (e2 & l2 & Heq & Hpx).
      rewrite Hloop in Heq. injection Heq as <- <-. exact Hpx. }
    assert (Hsim : cimg_forXY e (track_step (mark_fuel e) 0 low) (Some e)
                   = forget (cimg_forXY e (track_step_visits (mark_fuel e) 0 low)
                               (Some (e, [])))).
    { apply (cimg_forXY_sim e _ _ (fun s1 s2 => s1 = forget s2)); [|reflexivity].
      intros s1 s2 x y ->. apply track_step_forget. }
    rewrite Hloop in Hsim. simpl in Hsim.
    unfold trackEdge. rewrite Hnz, Hhigh. fold low. rewrite Hsim. f_equal.
    destruct (clear_unselected_spec e' Hwf') as ((Hw & Hh & Hlen) & Hpx).
    apply img_ext.
    + unfold wf_img; simpl. rewrite length_replicate. destruct Hwf as (? & ? & ?). auto.
    + destruct Hwf' as (? & ? & HL'). unfold wf_img. rewrite Hw, Hh, Hlen. auto.
    + simpl. rewrite Hw. apply Hm.
    + simpl. rewrite Hh. apply Hm.
    + intros x y Hin. simpl in Hin.
      assert (Hin' : inb e' x y).
      { unfold inb in *. simpl in Hin. rewrite (mk_width _ _ _ Hm), (mk_height _ _ _ Hm).
        exact Hin. }
      rewrite Hpx by exact Hin'.
      rewrite Hall by (unfold inb in *; simpl in Hin; exact Hin). simpl.
      unfold px, px3. simpl.
      destruct (replicate _ 255 !! _) as [v|] eqn:E.
      * apply lookup_replicate in E. simpl. symmetry. tauto.
      * exfalso. apply lookup_replicate_None in E.
        pose proof (offset_lt (mkImg (width e) (height e)
                                 (replicate (Z.to_nat (width e * height e)) 255)) x y) as Ho.
        simpl in Ho. rewrite length_replicate in Ho.
        unfold wf_img in Ho. simpl in Ho. rewrite length_replicate in Ho.
        destruct Hwf as (? & ? & ?).
        specialize (Ho ltac:(auto) Hin). unfold offset in E, Ho. simpl in E, Ho. lia.
Qed.

(** On a grid of zeros the sum, the mean, the deviation and both thresholds
    are 0, so the whole grid comes back 255. *)
Lemma highThreshold_zero_grid (w h : Z) : highThreshold_of (CImg_new w h) = 0.
Proof.
  assert (Hsum : pixel_sum (CImg_new w h) = 0).
  { unfold pixel_sum. apply (cimg_forXY_inv (CImg_new w h) _ (fun s => s = 0)); [|reflexivity].
    intros s x y _ ->. rewrite px_CImg_new. reflexivity. }
  assert (Hmean : mean_of (CImg_new w h) = S754_zero false).
  { unfold mean_of. rewrite Hsum, Zdiv_0_l. reflexivity. }
  assert (HsumSq : pixel_sumSq (CImg_new w h) = 0).
  { unfold pixel_sumSq. rewrite Hmean.
    apply (cimg_forXY_inv (CImg_new w h) _ (fun s => s = 0)); [|reflexivity].
    intros s x y _ ->. rewrite px_CImg_new. reflexivity. }
  unfold highThreshold_of, stdDev_of. rewrite Hmean, HsumSq, Zdiv_0_l. reflexivity.
Qed.

Lemma trackEdge_zero_grid (w h : Z) :
  0 < w -> 0 < h -> w * h < 2 ^ 31 ->
  trackEdge (CImg_new w h) = Returned (mkImg w h (replicate (Z.to_nat (w * h)) 255)).
Proof.
  intros Hw Hh Hn.
  apply (trackEdge_high_zero (CImg_new w h)).
  - apply wf_CImg_new; lia.
  - unfold bytes, CImg_new; simpl. apply Forall_replicate. lia.
  - simpl. nia.
  - apply highThreshold_zero_grid.
Qed.

(** ** Non-maximum suppression *)

Lemma set_px_CImg_new_0 (w h x y : Z) : set_px (CImg_new w h) x y 0 = CImg_new w h.
Proof. unfold set_px, CImg_new; simpl. rewrite insert_replicate. reflexivity. Qed.

(** Nothing survives the suppression of a gradient that is 0 everywhere. *)
Lemma nonMaxSuppression_zero (w h : Z) (gradient : CImg) (direction : CImgFloat) :
  (forall x y, px gradient x y = 0) ->
  fst (nonMaxSuppression (CImg_new w h) gradient direction) = CImg_new w h.
Proof.
  intros Hz. unfold nonMaxSuppression.
  apply (cimg_forXY_inv (CImg_new w h) _ (fun st : CImg * Out => fst st = CImg_new w h));
    [|reflexivity].
  intros [e out] x y _ He. simpl in He. subst e.
  destruct (interior (CImg_new w h) x y); [|reflexivity].
  destruct (discretizeDirection (pxf direction x y)) as [d msg].
  destruct (neighbour_mags gradient d x y) as [mag1 mag2].
  rewrite Hz.
  destruct ((mag1 <=? 0) && (mag2 <=? 0)); simpl; apply set_px_CImg_new_0.
Qed.

(** On the grids as they are constructed the suppression changes nothing
    and writes nothing. *)
Lemma nonMaxSuppression_default (w h : Z) :
  nonMaxSuppression (CImg_new w h) (CImg_new w h) (CImgFloat_new w h)
  = (CImg_new w h, []).
Proof.
  unfold nonMaxSuppression.
  apply (cimg_forXY_inv (CImg_new w h) _
           (fun st : CImg * Out => st = (CImg_new w h, [])));
    [|reflexivity].
  intros st x y _ ->.
  destruct (interior (CImg_new w h) x y); [|reflexivity].
  rewrite pxf_CImgFloat_new.
  change (discretizeDirection (S754_zero false)) with (0, @nil string).
  unfold neighbour_mags. simpl. rewrite !px_CImg_new. simpl.
  rewrite set_px_CImg_new_0. reflexivity.
Qed.

(** At every interior pixel the suppression stage leaves the value
    [suppressed]: the magnitude of the pixel when it is at least the two
    magnitudes that [neighbour_mags] reads for the bin of its stored
    direction, else 0.  The grid it produces is nowhere above the magnitude
    grid. *)
Lemma nonMaxSuppression_pointwise (gradient : CImg) (direction : CImgFloat) :
  wf_img gradient -> bytes gradient ->
  (forall x y, interior gradient x y = true ->
     px (fst (nonMaxSuppression (CImg_new (width gradient) (height gradient))
                gradient direction)) x y
     = suppressed gradient direction x y) /\
  (forall x y, inb gradient x y ->
     px (fst (nonMaxSuppression (CImg_new (width gradient) (height gradient))
                gradient direction)) x y
     <= px gradient x y).
Proof.
  intros Hwf Hb.
  set (e0 := CImg_new (width gradient) (height gradient)).
  assert (Hwf0 : wf_img e0) by (apply wf_CImg_new; apply Hwf).
  set (P := fun st : CImg * Out =>
              (width (fst st) = width gradient /\ height (fst st) = height gradient /\
               length (data (fst st)) = length (data e0)) /\
              forall x y, inb gradient x y -> px (fst st) x y <= px gradient x y).
  set (Q := fun (x y : Z) (st : CImg * Out) =>
              interior gradient x y = true ->
              px (fst st) x y = suppressed gradient direction x y).
  assert (Hwfs : forall st, P st -> wf_img (fst st)).
  { intros st ((Hw & Hh & Hl) & _). destruct Hwf0 as (? & ? & ?).
    unfold wf_img. rewrite Hw, Hh, Hl. auto. }
  assert (Hinb : forall st x y, P st -> inb e0 x y -> inb (fst st) x y).
  { intros st x y ((Hw & Hh & _) & _) Hin. unfold inb in *. rewrite Hw, Hh. exact Hin. }
  assert (Hbody : forall st x y,
            (if interior e0 x y
             then
               let angle := pxf direction x y in
               let '(d, msg) := discretizeDirection angle in
               let magnitude := px gradient x y in
               let '(mag1, mag2) := neighbour_mags gradient d x y in
               if (mag1 <=? magnitude) && (mag2 <=? magnitude)
               then (set_px (fst st) x y magnitude, snd st ++ msg)
               else (set_px (fst st) x y 0, snd st ++ msg)
             else st)
            = if interior gradient x y
              then (set_px (fst st) x y (suppressed gradient direction x y),
                    snd st ++ snd (discretizeDirection (pxf direction x y)))
              else st).
  { intros st x y. change (interior e0 x y) with (interior gradient x y).
    destruct (interior gradient x y); [|reflexivity].
    unfold suppressed. simpl.
    destruct (discretizeDirection (pxf direction x y)) as [d msg]. simpl.
    destruct (neighbour_mags gradient d x y) as [mag1 mag2]. simpl.
    destruct ((mag1 <=? px gradient x y) && (mag2 <=? px gradient x y)); reflexivity. }
  assert (Hle : forall x y, suppressed gradient direction x y <= px gradient x y).
  { intros x y. unfold suppressed.
    pose proof (bytes_px gradient x y Hb).
    destruct (_ && _); lia. }
  enough (H : P (nonMaxSuppression e0 gradient direction) /\
              forall x y, inb e0 x y -> Q x y (nonMaxSuppression e0 gradient direction)).
  { destruct H as [HP HQ]. split.
    - intros x y Hint. apply HQ; [|exact Hint]. apply interior_inb in Hint. exact Hint.
    - apply HP. }
  unfold nonMaxSuppression. apply cimg_forXY_each.
  - intros [e out] x y Hin HPs.
    pose proof (Hbody (e, out) x y) as Hb'. simpl in Hb'. rewrite Hb'. clear Hb'.
    destruct (interior gradient x y) eqn:Hint.
    + split.
      * split; [simpl; rewrite length_insert; apply HPs|].
        intros x' y' Hin'. simpl.
        destruct (decide ((x, y) = (x', y'))) as [[= <- <-] | Hne].
        -- rewrite px_set_px_eq; [apply Hle | apply (Hwfs _ HPs) | apply (Hinb _ _ _ HPs Hin)].
        -- rewrite px_set_px_ne; [apply HPs; exact Hin' | | | exact Hne].
           ++ apply (Hinb _ _ _ HPs Hin).
           ++ apply (Hinb _ _ _ HPs). exact Hin'.
      * intros _. simpl.
        rewrite px_set_px_eq; [reflexivity | apply (Hwfs _ HPs) | apply (Hinb _ _ _ HPs Hin)].
    + split; [exact HPs|]. intros Hc. congruence.
  - intros [e out] x y x' y' Hin Hin' HPs HQs.
    pose proof (Hbody (e, out) x y) as Hb'. simpl in Hb'. rewrite Hb'. clear Hb'.
    destruct (interior gradient x y) eqn:Hint; [|exact HQs].
    intros Hint'. simpl.
    destruct (decide ((x, y) = (x', y'))) as [[= <- <-] | Hne].
    + rewrite px_set_px_eq; [reflexivity | apply (Hwfs _ HPs) | apply (Hinb _ _ _ HPs Hin)].
    + rewrite px_set_px_ne; [apply HQs; exact Hint' | | | exact Hne].
      * apply (Hinb _ _ _ HPs Hin).
      * apply (Hinb _ _ _ HPs Hin').
  - split; [tauto|]. intros x y _. unfold e0. simpl. rewrite px_CImg_new.
    apply (bytes_px gradient x y Hb).
Qed.

(** ** The neighbours that the suppression compares *)

(** C9 on the code.  The image [rgb_step_4x5] changes from left to right
    only, so its gradient points along x: at the pixel (2, 2) the derivative
    along x is 120 and the derivative along y is 0, and the magnitude 160 of
    the neighbour (1, 2) along that direction is larger than the magnitude
    120 of the pixel.  [calculateGradient] collects the derivative along y
    in [gradientX] and the derivative along x in [gradientY], so the
    direction it stores is 90 degrees, the suppression compares the pixel
    with its neighbours (2, 1) and (2, 3) along the edge, and the pixel keeps
    its 120: the suppression returns the magnitude grid unchanged. *)
Theorem suppression_compares_along_the_edge (atan2_deg : Z -> Z -> float) :
  (forall gy, 0 < gy -> atan2_deg gy 0 = f_of_Z 90) ->
  toGray rgb_step_4x5 = mkImg 4 5 (concat (replicate 5 [0; 10; 40; 40])) /\
  spec_Gx (toGray rgb_step_4x5) 2 2 = 120 /\
  spec_Gy (toGray rgb_step_4x5) 2 2 = 0 /\
  sobel_sums (toGray rgb_step_4x5) 2 2 = (0, 120) /\
  fst (gradientInGray atan2_deg rgb_step_4x5 (CImg_new 4 5) (CImgFloat_new 4 5))
  = mkImg 4 5 [0; 0; 0; 0; 0; 160; 120; 0; 0; 160; 120; 0; 0; 160; 120; 0; 0; 0; 0; 0] /\
  pxf (snd (gradientInGray atan2_deg rgb_step_4x5 (CImg_new 4 5) (CImgFloat_new 4 5))) 2 2
  = f_of_Z 90 /\
  discretizeDirection (f_of_Z 90) = (2, []) /\
  fst (nonMaxSuppression (CImg_new 4 5)
         (fst (gradientInGray atan2_deg rgb_step_4x5 (CImg_new 4 5) (CImgFloat_new 4 5)))
         (snd (gradientInGray atan2_deg rgb_step_4x5 (CImg_new 4 5) (CImgFloat_new 4 5))))
  = mkImg 4 5 [0; 0; 0; 0; 0; 160; 120; 0; 0; 160; 120; 0; 0; 160; 120; 0; 0; 0; 0; 0].
Proof.
  intros Hatan.
  assert (Hgd : gradientInGray atan2_deg rgb_step_4x5 (CImg_new 4 5) (CImgFloat_new 4 5)
                = (mkImg 4 5 [0; 0; 0; 0; 0; 160; 120; 0; 0; 160; 120; 0;
                              0; 160; 120; 0; 0; 0; 0; 0],
                   mkImg 4 5 [S754_zero false; S754_zero false; S754_zero false;
                              S754_zero false;
                              S754_zero false; atan2_deg 160 0; atan2_deg 120 0;
                              S754_zero false;
                              S754_zero false; atan2_deg 160 0; atan2_deg 120 0;
                              S754_zero false;
                              S754_zero false; atan2_deg 160 0; atan2_deg 120 0;
                              S754_zero false;
                              S754_zero false; S754_zero false; S754_zero false;
                              S754_zero false]))
    by (vm_compute; reflexivity).
  rewrite Hgd. cbn [fst snd].
  rewrite !(Hatan 160), !(Hatan 120) by lia.
  repeat split; vm_compute; reflexivity.
Qed.

Lemma suppression_compares_along_the_edge_witness :
  fst (nonMaxSuppression (CImg_new 4 5)
         (fst (gradientInGray upward_atan rgb_step_4x5 (CImg_new 4 5) (CImgFloat_new 4 5)))
         (snd (gradientInGray upward_atan rgb_step_4x5 (CImg_new 4 5) (CImgFloat_new 4 5))))
  = mkImg 4 5 [0; 0; 0; 0; 0; 160; 120; 0; 0; 160; 120; 0; 0; 160; 120; 0; 0; 0; 0; 0].
Proof.
  apply (suppression_compares_along_the_edge upward_atan).
  intros gy Hgy. unfold upward_atan.
  replace (0 <? gy) with true by (symmetry; apply Z.ltb_lt; exact Hgy).
  reflexivity.
Defined.

(** ** The driver on concrete images *)

(** C1 on the code.  The flat 10x10 image (every sample 100) run with
    method 0 comes back with every pixel 255, whatever [atan2] delivers: the
    gradient is 0 everywhere, both thresholds are 0, and the tracking loop
    takes every pixel for a strong edge. *)
Theorem flat_image_all_marked (atan2_deg : Z -> Z -> float) :
  snd (extractEdgeCanny atan2_deg (rgb_flat 10 10 100) 0)
  = Returned (mkImg 10 10 (replicate 100 255)).
Proof.
  unfold extractEdgeCanny.
  change (width (rgb_flat 10 10 100)) with 10.
  change (height (rgb_flat 10 10 100)) with 10.
  change (0 =? 0) with true. cbv iota.
  assert (Hg : fst (gradientInGray atan2_deg (rgb_flat 10 10 100)
                      (CImg_new 10 10) (CImgFloat_new 10 10)) = CImg_new 10 10)
    by (vm_compute; reflexivity).
  destruct (gradientInGray atan2_deg (rgb_flat 10 10 100)
              (CImg_new 10 10) (CImgFloat_new 10 10)) as [g d].
  simpl in Hg. subst g.
  pose proof (nonMaxSuppression_zero 10 10 (CImg_new 10 10) d (px_CImg_new 10 10)) as Hn.
  destruct (nonMaxSuppression (CImg_new 10 10) (CImg_new 10 10) d) as [e out].
  simpl in Hn. subst e. simpl snd.
  vm_compute. reflexivity.
Qed.

(** C2 as stated fails: with method 1 the driver returns a grid. *)
Lemma color_path_returns_a_grid :
  extractEdgeCanny zero_atan (rgb_flat 10 10 100) 1
  = (["Error: Function not implemented"%string],
     Returned (mkImg 10 10 (replicate 100 255))).
Proof. vm_compute. reflexivity. Qed.

(** C2 as the code has it.  With a method other than 0 the driver writes
    the line "Error: Function not implemented", assigns no gradient, and goes
    on: it returns the grid that tracking produces from the grids as they were
    constructed.  No failure is raised. *)
Theorem color_path_prints_and_returns (atan2_deg : Z -> Z -> float)
    (image : CImg) (method : Z) :
  method <> 0 ->
  0 < width image -> 0 < height image -> width image * height image < 2 ^ 31 ->
  extractEdgeCanny atan2_deg image method
  = (["Error: Function not implemented"%string],
     trackEdge (CImg_new (width image) (height image))) /\
  exists g,
    trackEdge (CImg_new (width image) (height image)) = Returned g /\
    width g = width image /\ height g = height image.
Proof.
  intros Hm HW HH Hn. split.
  - unfold extractEdgeCanny. apply Z.eqb_neq in Hm. rewrite Hm.
    unfold gradientInColor. rewrite nonMaxSuppression_default. reflexivity.
  - destruct (trackEdge_result (CImg_new (width image) (height image)))
      as (e' & g & _ & Hg & _ & Hw & Hh & _).
    + apply wf_CImg_new; lia.
    + simpl. nia.
    + exists g. auto.
Qed.

Lemma color_path_prints_and_returns_witness :
  extractEdgeCanny zero_atan (rgb_flat 10 10 100) 1
  = (["Error: Function not implemented"%string], trackEdge (CImg_new 10 10)).
Proof.
  apply (color_path_prints_and_returns zero_atan (rgb_flat 10 10 100) 1);
    simpl; lia.
Defined.

(** C6 on the code.  Tracking the grid [10 20] gives [0 0], and tracking
    that result again gives [255 255]. *)
Theorem trackEdge_second_run_differs :
  trackEdge (mkImg 2 1 [10; 20]) = Returned (mkImg 2 1 [0; 0]) /\
  trackEdge (mkImg 2 1 [0; 0]) = Returned (mkImg 2 1 [255; 255]).
Proof. split; vm_compute; reflexivity. Qed.

(** C4 as stated fails: the empty grid reaches the division. *)
Lemma empty_grid_reaches_division :
  trackEdge (CImg_new 0 0) = DivisionByZero.
Proof. reflexivity. Qed.

(** ** The square root of the gradient *)

Lemma digits2_pos_size (p : positive) : digits2_pos p = Pos.size p.
Proof. induction p as [p IH | p IH |]; simpl; congruence. Qed.

Lemma digits2_pos_log2 (p : positive) : Z.pos (digits2_pos p) = Z.log2 (Z.pos p) + 1.
Proof.
  rewrite digits2_pos_size. destruct p; simpl; rewrite ?Pos2Z.inj_succ; lia.
Qed.

Lemma Zdigits2_unique (m d : Z) : 0 < d -> 2 ^ (d - 1) <= m < 2 ^ d -> Zdigits2 m = d.
Proof.
  intros Hd Hm. assert (0 < m) by (pose proof (Z.pow_pos_nonneg 2 (d - 1)); lia).
  destruct m as [|p|p]; try lia. simpl. rewrite digits2_pos_log2.
  rewrite (Z.log2_unique (Z.pos p) (d - 1)); try lia.
  replace (Z.succ (d - 1)) with d by lia. exact Hm.
Qed.

Lemma Zdigits2_bounds (p : positive) :
  2 ^ (Z.pos (digits2_pos p) - 1) <= Z.pos p < 2 ^ Z.pos (digits2_pos p).
Proof.
  rewrite digits2_pos_log2. replace (Z.log2 (Z.pos p) + 1 - 1) with (Z.log2 (Z.pos p)) by lia.
  apply Z.log2_spec. lia.
Qed.

Lemma pos_iter_xO (p s : positive) : Z.pos (Pos.iter xO p s) = Z.pos p * 2 ^ Z.pos s.
Proof.
  revert p. induction s using Pos.peano_ind; intros p.
  - simpl. lia.
  - rewrite Pos.iter_succ. rewrite Pos2Z.inj_xO, IHs, Pos2Z.inj_succ, Z.pow_succ_r; lia.
Qed.

(** A mantissa of 53 bits with an exponent in range is left as it is. *)
Lemma binary_round_aux_canonical (s : bool) (mx e : Z) (l : location) :
  0 < mx -> Zdigits2 mx = 53 -> Zdigits2 (round_nearest_even mx l) = 53 ->
  -1074 <= e <= 971 ->
  binary_round_aux 53 1024 s mx e l
  = S754_finite s (Z.to_pos (round_nearest_even mx l)) e.
Proof.
  intros Hpos Hd Hd' He. unfold binary_round_aux, shr_fexp.
  assert (Hr : 0 < round_nearest_even mx l).
  { destruct l as [|[]]; simpl; try lia. destruct (Z.even mx); lia. }
  rewrite Hd. unfold fexp, emin.
  replace (Z.max (53 + e - 53) (3 - 1024 - 53) - e) with 0 by lia.
  simpl shr. cbv beta iota zeta.
  replace (shr_m (shr_record_of_loc mx l)) with mx by (destruct l as [|[]]; reflexivity).
  replace (loc_of_shr_record (shr_record_of_loc mx l)) with l by (destruct l as [|[]]; reflexivity).
  rewrite Hd'.
  replace (Z.max (53 + e - 53) (3 - 1024 - 53) - e) with 0 by lia.
  simpl shr. cbv beta iota zeta. simpl shr_m.
  destruct (round_nearest_even mx l) as [|q|q] eqn:E; try lia.
  change (1024 - 53) with 971.
  replace (e <=? 971) with true by (symmetry; apply Z.leb_le; lia).
  reflexivity.
Qed.

Lemma d_of_Z_pos (p : positive) :
  Z.pos (digits2_pos p) < 53 ->
  d_of_Z (Z.pos p)
  = S754_finite false (Pos.iter xO p (Z.to_pos (53 - Z.pos (digits2_pos p))))
      (Z.pos (digits2_pos p) - 53).
Proof.
  intros Hd. unfold d_of_Z, binary_normalize, binary_round.
  set (d := Z.pos (digits2_pos p)) in *.
  assert (Hfe : fexp 53 1024 (d + 0) = d - 53).
  { unfold fexp, emin. unfold d. lia. }
  rewrite Hfe. unfold shl_align.
  destruct (d - 53 - 0) as [|q|q] eqn:E; try lia.
  assert (Hq : Z.to_pos (53 - d) = q) by lia. rewrite Hq.
  assert (Hdig : Zdigits2 (Z.pos (Pos.iter xO p q)) = 53).
  { apply Zdigits2_unique; [lia|]. rewrite pos_iter_xO.
    pose proof (Zdigits2_bounds p) as Hb. fold d in Hb.
    replace (Z.pos q) with (53 - d) by lia.
    assert (E1 : 2 ^ (53 - 1) = 2 ^ (d - 1) * 2 ^ (53 - d)).
    { rewrite <- Z.pow_add_r by (unfold d; lia). f_equal. lia. }
    assert (E2 : 2 ^ 53 = 2 ^ d * 2 ^ (53 - d)).
    { rewrite <- Z.pow_add_r by (unfold d; lia). f_equal. lia. }
    rewrite E1, E2.
    assert (0 < 2 ^ (53 - d)) by (apply Z.pow_pos_nonneg; lia).
    split; [apply Z.mul_le_mono_nonneg_r; lia | apply Z.mul_lt_mono_pos_r; lia]. }
  rewrite binary_round_aux_canonical; simpl round_nearest_even; auto; try lia.
Qed.

Lemma sqrt_scaled (n t q K : Z) :
  0 <= t -> t * t <= n < (t + 1) * (t + 1) ->
  0 <= q -> q * q <= n * (K * K) < (q + 1) * (q + 1) ->
  2 * (t + 1) < K ->
  t * K <= q /\ q + 1 < (t + 1) * K.
Proof.
  intros Ht Hn Hq Hm HK.
  assert (HKK : 0 <= K * K) by nia.
  split.
  - destruct (Z_lt_le_dec q (t * K)) as [Hlt|]; [|assumption].
    exfalso.
    assert (H1 : (q + 1) * (q + 1) <= (t * K) * (t * K))
      by (apply Z.mul_le_mono_nonneg; lia).
    assert (H2 : (t * t) * (K * K) <= n * (K * K))
      by (apply Z.mul_le_mono_nonneg_r; lia).
    replace ((t * K) * (t * K)) with ((t * t) * (K * K)) in H1 by ring. lia.
  - destruct (Z_lt_le_dec (q + 1) ((t + 1) * K)) as [|Hge]; [assumption|].
    exfalso.
    assert (H0 : 0 <= (t + 1) * K - 1) by nia.
    assert (H1 : ((t + 1) * K - 1) * ((t + 1) * K - 1) <= q * q)
      by (apply Z.mul_le_mono_nonneg; lia).
    assert (H2 : n * (K * K) <= ((t + 1) * (t + 1) - 1) * (K * K))
      by (apply Z.mul_le_mono_nonneg_r; lia).
    assert (H3 : 2 * (t + 1) * K < K * K) by (apply Z.mul_lt_mono_pos_r; lia).
    nia.
Qed.

Lemma mantissa_digits (p : positive) :
  Z.pos (digits2_pos p) < 53 ->
  Z.pos (Pos.iter xO p (Z.to_pos (53 - Z.pos (digits2_pos p))))
  = Z.pos p * 2 ^ (53 - Z.pos (digits2_pos p)) /\
  Zdigits2 (Z.pos (Pos.iter xO p (Z.to_pos (53 - Z.pos (digits2_pos p))))) = 53.
Proof.
  intros Hd. set (d := Z.pos (digits2_pos p)) in *.
  assert (Hv : Z.pos (Pos.iter xO p (Z.to_pos (53 - d))) = Z.pos p * 2 ^ (53 - d)).
  { rewrite pos_iter_xO. rewrite Z2Pos.id by lia. reflexivity. }
  split; [exact Hv|]. rewrite Hv.
  apply Zdigits2_unique; [lia|].
  pose proof (Zdigits2_bounds p) as Hb. fold d in Hb.
  assert (E1 : 2 ^ (53 - 1) = 2 ^ (d - 1) * 2 ^ (53 - d)).
  { rewrite <- Z.pow_add_r by (unfold d; lia). f_equal. lia. }
  assert (E2 : 2 ^ 53 = 2 ^ d * 2 ^ (53 - d)).
  { rewrite <- Z.pow_add_r by (unfold d; lia). f_equal. lia. }
  rewrite E1, E2.
  assert (0 < 2 ^ (53 - d)) by (apply Z.pow_pos_nonneg; lia).
  split; [apply Z.mul_le_mono_nonneg_r; lia | apply Z.mul_lt_mono_pos_r; lia].
Qed.

Lemma square_lt_cancel (a b : Z) : 0 <= a -> 0 <= b -> a * a < b * b -> a < b.
Proof. intros. nia. Qed.

(** The [double] square root of a 32-bit integer, converted back to an
    integer, is the integer square root. *)
Lemma trunc_dsqrt (n : Z) : 0 <= n < 2 ^ 32 -> trunc (dsqrt (d_of_Z n)) = Z.sqrt n.
Proof.
  intros Hn. destruct n as [|p|p]; [reflexivity| |lia].
  set (n := Z.pos p) in *. set (d := Z.pos (digits2_pos p)).
  pose proof (Zdigits2_bounds p) as Hb. fold d n in Hb.
  assert (Hd1 : 1 <= d) by (unfold d; lia).
  assert (Hd32 : d <= 32).
  { destruct (Z_le_gt_dec d 32) as [|Hgt]; [assumption|]. exfalso.
    assert (2 ^ 32 <= 2 ^ (d - 1)) by (apply Z.pow_le_mono_r; lia). lia. }
  destruct (mantissa_digits p) as [Hmz Hdig]; [fold d; lia|]. fold d n in Hmz, Hdig.
  unfold n at 1. rewrite d_of_Z_pos by (fold d; lia). fold d.
  set (mz := Pos.iter xO p (Z.to_pos (53 - d))) in *.
  unfold dsqrt, SFsqrt, SFsqrt_core_binary. rewrite Hdig.
  set (h := (d + 1) / 2).
  assert (Hh : 1 <= h <= 16 /\ (d = 2 * h \/ d = 2 * h - 1)). { unfold h. clearbody d. clear -Hd1 Hd32. Z.div_mod_to_equations. lia. }
  set (k := 53 - h).
  assert (He' : Z.min (fexp 53 1024 (Z.div2 (53 + (d - 53) + 1))) (Z.div2 (d - 53)) = - k).
  { unfold fexp, emin. rewrite !Z.div2_div. unfold k, h. clearbody d. clear -Hd1 Hd32. Z.div_mod_to_equations. lia. }
  rewrite He'.
  assert (Hs : d - 53 - 2 * - k = 53 + d - 2 * h) by (unfold k; lia).
  rewrite Hs.
  destruct (53 + d - 2 * h) as [|s|s] eqn:Es; try lia.
  rewrite <- Es. rewrite Z.shiftl_mul_pow2 by lia. rewrite Hmz.
  set (K := 2 ^ k).
  assert (HK : 0 < K) by (apply Z.pow_pos_nonneg; unfold k; lia).
  assert (Hm' : n * 2 ^ (53 - d) * 2 ^ (53 + d - 2 * h) = n * (K * K)).
  { unfold K. rewrite <- Z.mul_assoc, <- !Z.pow_add_r by (unfold k; lia).
    f_equal. f_equal. unfold k. lia. }
  rewrite Hm'.
  pose proof (Z.sqrtrem_spec (n * (K * K))) as Hsq.
  destruct (Z.sqrtrem (n * (K * K))) as [q r].
  destruct Hsq as [Hq Hr]; [nia|].
  pose proof (Z.sqrt_spec n) as Ht. set (t := Z.sqrt n) in *.
  assert (Ht0 : 0 <= t) by apply Z.sqrt_nonneg.
  specialize (Ht ltac:(lia)). unfold Z.succ in Ht.
  assert (Hq0 : 0 <= q) by lia.
  assert (Hth : t + 1 <= 2 ^ h).
  { assert (t < 2 ^ h); [|lia]. apply square_lt_cancel; [lia | apply Z.pow_nonneg; lia |].
    assert (2 ^ d <= 2 ^ h * 2 ^ h).
    { rewrite <- Z.pow_add_r by lia. apply Z.pow_le_mono_r; lia. }
    lia. }
  assert (HhK : 2 * 2 ^ h < K).
  { unfold K. replace (2 * 2 ^ h) with (2 ^ (h + 1)) by (rewrite Z.pow_add_r; lia).
    apply Z.pow_lt_mono_r; unfold k; lia. }
  destruct (sqrt_scaled n t q K) as [Hlo Hhi]; try lia.
  assert (H53 : 2 ^ h * K = 2 ^ 53).
  { unfold K. rewrite <- Z.pow_add_r by (unfold k; lia). f_equal. unfold k. lia. }
  assert (Hq53 : q + 1 < 2 ^ 53).
  { assert ((t + 1) * K <= 2 ^ h * K) by (apply Z.mul_le_mono_nonneg_r; lia). lia. }
  assert (Hq52 : 2 ^ 52 <= q).
  { destruct (Z_le_gt_dec (2 ^ 52) q) as [|Hgt]; [assumption|]. exfalso.
    assert (H1 : (q + 1) * (q + 1) <= 2 ^ 52 * 2 ^ 52) by (apply Z.mul_le_mono_nonneg; lia).
    assert (H2 : 2 ^ 52 * 2 ^ 52 <= 2 ^ (d - 1) * (K * K)).
    { unfold K. rewrite <- !Z.pow_add_r by (unfold k; lia).
      apply Z.pow_le_mono_r; unfold k; lia. }
    assert (H3 : 2 ^ (d - 1) * (K * K) <= n * (K * K))
      by (apply Z.mul_le_mono_nonneg_r; nia).
    lia. }
  set (l := if r =? 0 then loc_Exact else loc_Inexact (if r <=? q then Lt else Gt)).
  assert (Hround : round_nearest_even q l = q \/ round_nearest_even q l = q + 1).
  { unfold l. destruct (r =? 0); [left; reflexivity|].
    destruct (r <=? q); [left | right]; reflexivity. }
  assert (Hdq : forall q', q' = q \/ q' = q + 1 -> Zdigits2 q' = 53).
  { intros q' Hq'. apply Zdigits2_unique; [lia|]. change (53 - 1) with 52. lia. }
  rewrite binary_round_aux_canonical; try (unfold k; lia); auto.
  unfold trunc.
  set (q' := round_nearest_even q l) in *.
  rewrite Z2Pos.id by lia.
  rewrite Z.shiftl_opp_r, Z.shiftr_div_pow2 by (unfold k; lia). fold K.
  symmetry. apply (Z.div_unique q' K t (q' - K * t)); [|lia].
  left. nia.
Qed.

Lemma round_sqrt_nearest (n : Z) :
  0 < n ->
  (2 * round_sqrt n - 1) * (2 * round_sqrt n - 1) <= 4 * n
  < (2 * round_sqrt n + 1) * (2 * round_sqrt n + 1).
Proof.
  intros Hn. unfold round_sqrt.
  pose proof (Z.sqrt_spec (4 * n) ltac:(lia)) as Hs. unfold Z.succ in Hs.
  pose proof (Z.sqrt_nonneg (4 * n)) as Hs0.
  set (s := Z.sqrt (4 * n)) in *.
  assert (Hs2 : 2 <= s).
  { destruct (Z_le_gt_dec 2 s); [assumption|]. exfalso.
    assert ((s + 1) * (s + 1) <= 2 * 2) by (apply Z.mul_le_mono_nonneg; lia). lia. }
  set (r := (s + 1) / 2).
  assert (Hr : s = 2 * r \/ s = 2 * r - 1).
  { unfold r. clearbody s. clear. Z.div_mod_to_equations. lia. }
  clearbody r. clearbody s. destruct Hr as [Hr | Hr]; subst s; nia.
Qed.

(** ** The gradient of a pixel *)

Lemma sobel_sums_closed (image : CImg) (x y : Z) :
  sobel_sums image x y = (sobel_x image x y, sobel_y image x y).
Proof.
  unfold sobel_sums, sobel_x, sobel_y, kernel. simpl.
  replace (x + 0) with x by lia. replace (y + 0) with y by lia.
  replace (x + -1) with (x - 1) by lia. replace (y + -1) with (y - 1) by lia.
  f_equal; ring.
Qed.

Lemma sobel_bounds (image : CImg) (x y : Z) :
  bytes image ->
  -1020 <= sobel_x image x y <= 1020 /\ -1020 <= sobel_y image x y <= 1020.
Proof.
  intros Hb. unfold sobel_x, sobel_y.
  pose proof (bytes_px image (x - 1) (y - 1) Hb).
  pose proof (bytes_px image (x - 1) y Hb).
  pose proof (bytes_px image (x - 1) (y + 1) Hb).
  pose proof (bytes_px image x (y - 1) Hb).
  pose proof (bytes_px image x (y + 1) Hb).
  pose proof (bytes_px image (x + 1) (y - 1) Hb).
  pose proof (bytes_px image (x + 1) y Hb).
  pose proof (bytes_px image (x + 1) (y + 1) Hb).
  lia.
Qed.

(** The gradient of one pixel of an 8-bit image: the weighted sums, the
    integer square root reduced to 8 bits, and the angle of [atan2]. *)
Lemma calculateGradient_spec (atan2_deg : Z -> Z -> float)
    (image : CImg) (x y : Z) :
  bytes image ->
  sobel_sums image x y = (sobel_x image x y, sobel_y image x y) /\
  mag (calculateGradient atan2_deg image x y)
  = Z.sqrt (sobel_x image x y * sobel_x image x y
            + sobel_y image x y * sobel_y image x y) mod 256 /\
  (Z.sqrt (sobel_x image x y * sobel_x image x y
           + sobel_y image x y * sobel_y image x y) <= 255 ->
   mag (calculateGradient atan2_deg image x y)
   = Z.sqrt (sobel_x image x y * sobel_x image x y
             + sobel_y image x y * sobel_y image x y)) /\
  dir (calculateGradient atan2_deg image x y)
  = atan2_deg (sobel_y image x y) (sobel_x image x y).
Proof.
  intros Hb. pose proof (sobel_bounds image x y Hb) as [Hx Hy].
  unfold calculateGradient. rewrite sobel_sums_closed. simpl.
  set (gx := sobel_x image x y) in *. set (gy := sobel_y image x y) in *.
  assert (Hn : 0 <= gx * gx + gy * gy < 2 ^ 32).
  { assert (0 <= gx * gx <= 1020 * 1020) by nia.
    assert (0 <= gy * gy <= 1020 * 1020) by nia. lia. }
  assert (Hm : to_uchar (dsqrt (d_of_Z (gx * gx + gy * gy)))
               = Z.sqrt (gx * gx + gy * gy) mod 256).
  { unfold to_uchar. rewrite trunc_dsqrt by exact Hn. reflexivity. }
  repeat split; try assumption.
  intros Hle. rewrite Hm. apply Z.mod_small.
  pose proof (Z.sqrt_nonneg (gx * gx + gy * gy)). lia.
Qed.

(** The two sums of [calculateGradient] against the derivatives of the
    specification: the first sum is the derivative along y with its sign
    turned, the second is the derivative along x. *)
Lemma sobel_sums_transposed (image : CImg) (x y : Z) :
  sobel_sums image x y = (- spec_Gy image x y, spec_Gx image x y).
Proof.
  rewrite sobel_sums_closed.
  unfold spec_Gx, spec_Gy, spec_weighted, sobel_x, sobel_y, kernel. simpl.
  replace (x + 0) with x by lia. replace (y + 0) with y by lia.
  replace (x + -1) with (x - 1) by lia. replace (y + -1) with (y - 1) by lia.
  f_equal; ring.
Qed.

Lemma floor_sqrt_transposed (G m gx gy sx sy : Z) :
  G = m -> (- gy, gx) = (sx, sy) ->
  (Z.sqrt (sx * sx + sy * sy) <= 255 -> m = Z.sqrt (sx * sx + sy * sy)) ->
  Z.sqrt (gx * gx + gy * gy) <= 255 ->
  G = Z.sqrt (gx * gx + gy * gy) /\
  G * G <= gx * gx + gy * gy < (G + 1) * (G + 1).
Proof.
  intros Hm Hs H3 Hle. injection Hs as Hx Hy. subst sx sy.
  replace (- gy * - gy + gx * gx) with (gx * gx + gy * gy) in H3 by ring.
  rewrite Hm, (H3 Hle). split; [reflexivity|].
  apply Z.sqrt_spec. nia.
Qed.

(** ** The gradient grids *)

Lemma pxf_set_px_eq (d : CImgFloat) (x y : Z) (v : float) :
  wf_img d -> inb d x y -> pxf (set_px d x y v) x y = v.
Proof. apply (px3_set_px_eq (S754_zero false)). Qed.

Lemma pxf_set_px_ne (d : CImgFloat) (x y x' y' : Z) (v : float) :
  inb d x y -> inb d x' y' -> (x, y) <> (x', y') ->
  pxf (set_px d x y v) x' y' = pxf d x' y'.
Proof. apply (px3_set_px_ne (S754_zero false)). Qed.

Lemma toGray_bytes (image : CImg) : bytes (toGray image).
Proof.
  unfold toGray. apply (cimg_forXY_inv image _ bytes).
  - intros g x y _ Hg. unfold bytes, set_px; simpl. apply Forall_insert; [exact Hg|].
    pose proof (to_uchar_range
                  (dadd (dadd (dmul c_0299 (d_of_Z (px3 0 image x y 0)))
                              (dmul c_0587 (d_of_Z (px3 0 image x y 1))))
                        (dmul c_0114 (d_of_Z (px3 0 image x y 2))))) as Hr.
    unfold grayValue. lia.
  - unfold bytes, CImg_new; simpl. apply Forall_replicate. lia.
Qed.

Section GradientStage.
Variable atan2_deg : Z -> Z -> float.

(** After the gradient stage an interior pixel holds the gradient that
    [calculateGradient] computes for it on the gray image. *)
Lemma gradientInGray_interior (image : CImg) (x y : Z) :
  interior image x y = true ->
  px (fst (gradientInGray atan2_deg image
             (CImg_new (width image) (height image))
             (CImgFloat_new (width image) (height image)))) x y
  = mag (calculateGradient atan2_deg (toGray image) x y) /\
  pxf (snd (gradientInGray atan2_deg image
              (CImg_new (width image) (height image))
              (CImgFloat_new (width image) (height image)))) x y
  = dir (calculateGradient atan2_deg (toGray image) x y).
Proof.
  intros Hint. unfold gradientInGray.
  destruct (toGray_dims image) as [HW HH].
  set (gray := toGray image) in *.
  assert (Hdim : 0 <= width image /\ 0 <= height image).
  { apply interior_inb in Hint. unfold inb in Hint. lia. }
  set (g0 := CImg_new (width image) (height image)).
  set (d0 := CImgFloat_new (width image) (height image)).
  set (P := fun st : CImg * CImgFloat =>
              (width (fst st) = width image /\ height (fst st) = height image /\
               length (data (fst st)) = length (data g0)) /\
              (width (snd st) = width image /\ height (snd st) = height image /\
               length (data (snd st)) = length (data d0))).
  set (Q := fun (x y : Z) (st : CImg * CImgFloat) =>
              interior gray x y = true ->
              px (fst st) x y = mag (calculateGradient atan2_deg gray x y) /\
              pxf (snd st) x y = dir (calculateGradient atan2_deg gray x y)).
  assert (Hwfg : forall st, P st -> wf_img (fst st) /\ wf_img (snd st)).
  { intros st ((Hw & Hh & Hl) & (Hw' & Hh' & Hl')). unfold wf_img.
    rewrite Hw, Hh, Hl, Hw', Hh', Hl'. unfold g0, d0; simpl.
    rewrite !length_replicate. tauto. }
  assert (Hinb : forall st x y, P st -> inb gray x y -> inb (fst st) x y /\ inb (snd st) x y).
  { intros st x0 y0 ((Hw & Hh & _) & (Hw' & Hh' & _)) Hin. unfold inb in *.
    rewrite Hw, Hh, Hw', Hh', <- HW, <- HH. tauto. }
  enough (H : P (cimg_forXY gray
                   (fun '(gradient, direction) x0 y0 =>
                      if interior gray x0 y0
                      then let gr := calculateGradient atan2_deg gray x0 y0 in
                           (set_px gradient x0 y0 (mag gr), set_px direction x0 y0 (dir gr))
                      else (gradient, direction)) (g0, d0)) /\
              forall x y, inb gray x y ->
                Q x y (cimg_forXY gray
                   (fun '(gradient, direction) x0 y0 =>
                      if interior gray x0 y0
                      then let gr := calculateGradient atan2_deg gray x0 y0 in
                           (set_px gradient x0 y0 (mag gr), set_px direction x0 y0 (dir gr))
                      else (gradient, direction)) (g0, d0))).
  { destruct H as [_ HQ]. apply HQ.
    - apply interior_inb. unfold interior in *. rewrite HW, HH. exact Hint.
    - unfold interior in *. rewrite HW, HH. exact Hint. }
  apply cimg_forXY_each.
  - intros [g d] x0 y0 Hin HPs.
    destruct (Hwfg _ HPs) as [Hwg Hwd]. destruct (Hinb _ _ _ HPs Hin) as [Hig Hid].
    simpl in Hwg, Hwd, Hig, Hid.
    destruct (interior gray x0 y0) eqn:Hi0.
    + split.
      * destruct HPs as ((Hw & Hh & Hl) & (Hw' & Hh' & Hl')). simpl in *.
        unfold P; simpl. rewrite !length_insert. tauto.
      * intros _. simpl. split; [apply px_set_px_eq | apply pxf_set_px_eq]; assumption.
    + split; [exact HPs|]. intros Hc. congruence.
  - intros [g d] x0 y0 x1 y1 Hin Hin1 HPs HQs.
    destruct (Hinb _ _ _ HPs Hin) as [Hig Hid]. destruct (Hinb _ _ _ HPs Hin1) as [Hig1 Hid1].
    destruct (Hwfg _ HPs) as [Hwg Hwd].
    simpl in Hwg, Hwd, Hig, Hid, Hig1, Hid1.
    destruct (interior gray x0 y0) eqn:Hi0; [|exact HQs].
    intros Hi1. simpl.
    destruct (decide ((x0, y0) = (x1, y1))) as [[= <- <-] | Hne].
    + split; [apply px_set_px_eq | apply pxf_set_px_eq]; assumption.
    + rewrite px_set_px_ne, pxf_set_px_ne by assumption. apply HQs, Hi1.
  - unfold P; simpl. tauto.
Qed.

(** C8 as the code has it.  With [Gx] and [Gy] the derivatives of the gray
    image that the Sobel kernel and its transpose-negation give at an
    interior pixel, the magnitude that the gradient stage stores there is
    the square root of [Gx * Gx + Gy * Gy] with its fraction dropped,
    whenever that is at most 255: the largest integer whose square does not
    exceed the sum of the squares. *)
Theorem gradient_stage_floor_sqrt (image : CImg) (x y : Z) :
  interior image x y = true ->
  Z.sqrt (spec_Gx (toGray image) x y * spec_Gx (toGray image) x y
          + spec_Gy (toGray image) x y * spec_Gy (toGray image) x y) <= 255 ->
  px (fst (gradientInGray atan2_deg image
             (CImg_new (width image) (height image))
             (CImgFloat_new (width image) (height image)))) x y
  = Z.sqrt (spec_Gx (toGray image) x y * spec_Gx (toGray image) x y
            + spec_Gy (toGray image) x y * spec_Gy (toGray image) x y) /\
  px (fst (gradientInGray atan2_deg image
             (CImg_new (width image) (height image))
             (CImgFloat_new (width image) (height image)))) x y
  * px (fst (gradientInGray atan2_deg image
               (CImg_new (width image) (height image))
               (CImgFloat_new (width image) (height image)))) x y
  <= spec_Gx (toGray image) x y * spec_Gx (toGray image) x y
     + spec_Gy (toGray image) x y * spec_Gy (toGray image) x y
  < (px (fst (gradientInGray atan2_deg image
                (CImg_new (width image) (height image))
                (CImgFloat_new (width image) (height image)))) x y + 1)
    * (px (fst (gradientInGray atan2_deg image
                  (CImg_new (width image) (height image))
                  (CImgFloat_new (width image) (height image)))) x y + 1).
Proof.
  intros Hint Hle.
  destruct (gradientInGray_interior image x y Hint) as [Hm _].
  destruct (calculateGradient_spec atan2_deg (toGray image) x y (toGray_bytes image))
    as (Hs & _ & H3 & _).
  rewrite sobel_sums_transposed in Hs.
  exact (floor_sqrt_transposed _ _ _ _ _ _ Hm Hs H3 Hle).
Qed.

End GradientStage.

Lemma gradient_stage_floor_sqrt_witness :
  px (fst (gradientInGray zero_atan rgb_corner_7
             (CImg_new 3 3) (CImgFloat_new 3 3))) 1 1
  = Z.sqrt (spec_Gx (toGray rgb_corner_7) 1 1 * spec_Gx (toGray rgb_corner_7) 1 1
            + spec_Gy (toGray rgb_corner_7) 1 1 * spec_Gy (toGray rgb_corner_7) 1 1).
Proof.
  destruct (gradient_stage_floor_sqrt zero_atan rgb_corner_7 1 1) as [H _];
    [reflexivity | apply Z.leb_le; vm_compute; reflexivity | exact H].
Defined.

(** C8 as stated fails: the gray image of [rgb_corner_7] is black but for
    a 7 in its last pixel, the derivatives at the centre are 7 and -7, the
    integer nearest to the square root of 98 is 10, and the magnitude stored
    is 9. *)
Lemma magnitude_is_not_rounded :
  interior rgb_corner_7 1 1 = true /\
  toGray rgb_corner_7 = mkImg 3 3 [0; 0; 0; 0; 0; 0; 0; 0; 7] /\
  spec_Gx (toGray rgb_corner_7) 1 1 = 7 /\
  spec_Gy (toGray rgb_corner_7) 1 1 = -7 /\
  round_sqrt (7 * 7 + -7 * -7) = 10 /\
  px (fst (gradientInGray zero_atan rgb_corner_7 (CImg_new 3 3) (CImgFloat_new 3 3))) 1 1
  = 9.
Proof. repeat split; vm_compute; reflexivity. Qed.

(** ** The statistics of the tracking stage *)

Lemma fold_left_ext {A B} (f g : A -> B -> A) (l : list B) :
  (forall a b, f a b = g a b) -> forall s, fold_left f l s = fold_left g l s.
Proof.
  intros Hfg. induction l as [|b l IH]; intros s; simpl; [reflexivity|].
  rewrite Hfg. apply IH.
Qed.

Lemma fold_left_map_arg {A B C} (f : A -> C -> A) (g : B -> C) (l : list B) :
  forall s, fold_left f (map g l) s = fold_left (fun a b => f a (g b)) l s.
Proof. induction l as [|b l IH]; intros s; simpl; [reflexivity | apply IH]. Qed.

Lemma fold_row {St} (f : St -> Z -> St) (row : list Z) : forall (pre post : list Z) (s : St),
  fold_left (fun s i => f s (default 0 ((pre ++ row ++ post) !! (length pre + i)%nat)))
    (seq 0 (length row)) s
  = fold_left f row s.
Proof.
  induction row as [|a row IH]; intros pre post s; simpl; [reflexivity|].
  rewrite Nat.add_0_r, lookup_app_r, Nat.sub_diag by lia. simpl.
  rewrite <- seq_shift, fold_left_map_arg.
  rewrite <- (IH (pre ++ [a]) post (f s a)).
  apply fold_left_ext. intros s' i.
  rewrite <- app_assoc, length_app. simpl.
  replace (length pre + 1 + i)%nat with (length pre + S i)%nat by lia. reflexivity.
Qed.

Lemma fold_rows {St} (f : St -> Z -> St) (w : nat) : forall (h : nat) (pre d : list Z) (s : St),
  length d = (h * w)%nat ->
  fold_left
    (fun s j =>
       fold_left (fun s i => f s (default 0 ((pre ++ d) !! (length pre + (i + j * w))%nat)))
         (seq 0 w) s)
    (seq 0 h) s
  = fold_left f d s.
Proof.
  induction h as [|h IH]; intros pre d s Hl; simpl.
  - destruct d; [reflexivity | discriminate].
  - simpl in Hl.
    assert (Hrow : length (take w d) = w) by (rewrite length_take; lia).
    assert (Hrest : length (drop w d) = (h * w)%nat) by (rewrite length_drop; lia).
    assert (Hd : d = take w d ++ drop w d) by (symmetry; apply take_drop).
    transitivity (fold_left f (take w d ++ drop w d) s); [|rewrite take_drop; reflexivity].
    rewrite fold_left_app.
    rewrite <- (IH (pre ++ take w d) (drop w d)) by exact Hrest.
    rewrite <- seq_shift, fold_left_map_arg.
    assert (Hfirst :
      fold_left (fun s0 i => f s0 (default 0 ((pre ++ d) !! (length pre + (i + 0))%nat)))
        (seq 0 w) s
      = fold_left f (take w d) s).
    { rewrite <- (fold_row f (take w d) pre (drop w d) s), Hrow.
      apply fold_left_ext. intros s' i. rewrite <- Hd, Nat.add_0_r. reflexivity. }
    rewrite Hfirst.
    apply fold_left_ext. intros s' j.
    apply fold_left_ext. intros s'' i.
    rewrite <- app_assoc, <- Hd, length_app, Hrow.
    do 3 f_equal. simpl. lia.
Qed.

(** A loop over the pixels that only reads the pixel it is at is a loop
    over the buffer. *)
Lemma cimg_forXY_buffer {St} (e : CImg) (f : St -> Z -> St) (s : St) :
  wf_img e ->
  cimg_forXY e (fun s x y => f s (px e x y)) s = fold_left f (data e) s.
Proof.
  intros (HW & HH & HL). unfold cimg_forXY, zrange.
  rewrite fold_left_map_arg.
  rewrite <- (fold_rows f (Z.to_nat (width e)) (Z.to_nat (height e)) [] (data e) s)
    by (rewrite HL, Z2Nat.inj_mul by lia; lia).
  apply fold_left_ext. intros s' j.
  rewrite fold_left_map_arg.
  apply fold_left_ext. intros s'' i.
  unfold px, px3, offset. simpl. do 3 f_equal.
  rewrite Z.add_0_r, Z2Nat.inj_add, Z2Nat.inj_mul, !Nat2Z.id by nia. reflexivity.
Qed.

Lemma total_bounds (l : list Z) :
  Forall (fun v => 0 <= v <= 255) l -> 0 <= total l <= 255 * Z.of_nat (length l).
Proof.
  induction 1 as [|v l Hv _ IH]; simpl; [lia|]. unfold total in *. simpl. lia.
Qed.

Lemma sum_without_wrap (l : list Z) : forall a,
  Forall (fun v => 0 <= v <= 255) l ->
  0 <= a -> a + 255 * Z.of_nat (length l) < 2 ^ 32 ->
  fold_left (fun sum v => u32 (sum + v)) l a = a + total l.
Proof.
  induction l as [|v l IH]; intros a Hl Ha Hb; simpl.
  - unfold total. simpl. lia.
  - inversion Hl as [|? ? Hv Hl']; subst.
    pose proof (total_bounds l Hl') as Ht.
    assert (Hu : u32 (a + v) = a + v).
    { unfold u32. apply Z.mod_small. simpl length in Hb. lia. }
    rewrite Hu, IH; [unfold total; simpl; lia | assumption | lia |].
    simpl length in Hb. lia.
Qed.

Lemma trunc_f_of_Z_byte (m : Z) : 0 <= m <= 255 -> trunc (f_of_Z m) = m.
Proof.
  intros Hm.
  assert (Hall : forallb (fun m => trunc (f_of_Z m) =? m) (zrange 256) = true)
    by (vm_compute; reflexivity).
  rewrite forallb_forall in Hall.
  apply Z.eqb_eq. apply Hall. apply zrange_In. lia.
Qed.

Lemma pixel_sum_total (edge : CImg) :
  wf_img edge -> bytes edge -> 255 * (width edge * height edge) < 2 ^ 32 ->
  pixel_sum edge = total (data edge).
Proof.
  intros Hwf Hb Hn. unfold pixel_sum.
  rewrite (cimg_forXY_buffer edge (fun sum v => u32 (sum + v)) 0 Hwf).
  rewrite sum_without_wrap; [lia | exact Hb | lia |].
  destruct Hwf as (HW & HH & HL). rewrite HL, Z2Nat.id by nia. lia.
Qed.

(** C3 on the code.  On the grid [0 3] the sum is 3 and the number of
    pixels 2.  The code divides the two unsigned integers, so its mean is 1
    where the mean is 1.5; its sum of squared deviations is 5, divided as an
    integer again, and its deviation is the square root of 2.  Its
    thresholds are 3 and 2, and the pixel 3 comes back 255.  With the
    divisions done in floating point the thresholds are 4 and 3, and under
    those no pixel of the grid is marked. *)
Theorem thresholds_use_integer_division :
  pixel_sum pair_0_3 = 3 /\ numPixels pair_0_3 = 2 /\
  mean_of pair_0_3 = f_of_Z 1 /\
  pixel_sumSq pair_0_3 = 5 /\
  stdDev_of pair_0_3 = f_of_d (dsqrt (d_of_Z 2)) /\
  (highThreshold_of pair_0_3, lowThreshold_of pair_0_3) = (3, 2) /\
  trackEdge pair_0_3 = Returned (mkImg 2 1 [0; 255]) /\
  thresholds_spec pair_0_3 = (4, 3) /\
  option_map clear_unselected
    (cimg_forXY pair_0_3 (track_step (mark_fuel pair_0_3) 4 3) (Some pair_0_3))
  = Some (mkImg 2 1 [0; 0]).
Proof. repeat split; vm_compute; reflexivity. Qed.

(* ================================================================= *)
(** * Further properties of the stages *)

(** ** The direction bins *)

Lemma iter_pos_inv {A} (f : A -> A) (P : A -> Prop) :
  (forall x, P x -> P (f x)) -> forall p x, P x -> P (@SpecFloat.iter_pos A f p x).
Proof.
  intros Hf. induction p as [p IH | p IH |]; intros x Hx; simpl; auto.
Qed.

Lemma shr_1_nonneg (r : shr_record) : 0 <= shr_m r -> 0 <= shr_m (shr_1 r).
Proof.
  destruct r as [m rb sb]. simpl. intros Hm.
  destruct m as [|[p|p|]|p]; simpl; lia.
Qed.

Lemma shr_nonneg (r : shr_record) (e n : Z) :
  0 <= shr_m r -> 0 <= shr_m (fst (shr r e n)).
Proof.
  intros Hr. unfold shr. destruct n as [|p|p]; simpl; auto.
  apply iter_pos_inv; auto using shr_1_nonneg.
Qed.

Lemma binary_round_aux_not_nan (prec emax : Z) (s : bool) (mx e : Z) (l : location) :
  0 <= mx -> is_nan (binary_round_aux prec emax s mx e l) = false.
Proof.
  intros Hmx. unfold binary_round_aux, shr_fexp.
  pose proof (shr_nonneg (shr_record_of_loc mx l) e
                (fexp prec emax (Zdigits2 mx + e) - e)) as H1.
  destruct (shr (shr_record_of_loc mx l) e (fexp prec emax (Zdigits2 mx + e) - e))
    as [mrs' e'].
  simpl in H1. specialize (H1 ltac:(destruct l as [|[]]; simpl; lia)).
  set (m1 := round_nearest_even (shr_m mrs') (loc_of_shr_record mrs')).
  assert (Hm1 : 0 <= m1).
  { unfold m1, round_nearest_even. destruct (loc_of_shr_record mrs') as [|[]]; try lia.
    destruct (Z.even (shr_m mrs')); lia. }
  pose proof (shr_nonneg (shr_record_of_loc m1 loc_Exact) e'
                (fexp prec emax (Zdigits2 m1 + e') - e')) as H2.
  destruct (shr (shr_record_of_loc m1 loc_Exact) e' (fexp prec emax (Zdigits2 m1 + e') - e'))
    as [mrs'' e''].
  simpl in H2. specialize (H2 Hm1).
  destruct (shr_m mrs'') as [|q|q]; try lia; [reflexivity|].
  destruct (e'' <=? emax - prec); reflexivity.
Qed.

Lemma binary_round_not_nan (prec emax : Z) (s : bool) (m : positive) (e : Z) :
  is_nan (binary_round prec emax s m e) = false.
Proof.
  unfold binary_round. destruct (shl_align m e _) as [mz ez].
  apply binary_round_aux_not_nan. lia.
Qed.

Lemma binary_normalize_not_nan (prec emax m e : Z) (sz : bool) :
  is_nan (binary_normalize prec emax m e sz) = false.
Proof.
  destruct m; simpl; auto using binary_round_not_nan.
Qed.

Lemma fadd_180_not_nan (a : float) :
  is_nan a = false -> is_nan (fadd a (f_of_Z 180)) = false.
Proof.
  intros Ha. change (f_of_Z 180) with (S754_finite false 11796480 (-16)).
  destruct a as [s|s| |s m e]; try discriminate; try reflexivity.
  unfold fadd, SFadd. apply binary_normalize_not_nan.
Qed.

Lemma d_of_f_not_nan (a : float) : is_nan a = false -> is_nan (d_of_f a) = false.
Proof.
  destruct a; simpl; auto using binary_round_not_nan.
Qed.

Lemma SFcompare_antisym (a b : spec_float) :
  is_nan a = false -> is_nan b = false ->
  exists c, SFcompare a b = Some c /\ SFcompare b a = Some (CompOpp c).
Proof.
  intros Ha Hb.
  destruct a as [sa|sa| |sa ma ea], b as [sb|sb| |sb mb eb]; try discriminate; simpl;
    try (destruct sa; try destruct sb; eexists; split; reflexivity);
    try (destruct sb; eexists; split; reflexivity).
  destruct sa, sb; try (eexists; split; reflexivity).
  - rewrite (Z.compare_antisym ea eb).
    destruct (ea ?= eb) eqn:E; simpl; try (eexists; split; reflexivity).
    pose proof (Pos.compare_cont_antisym ma mb Eq) as Hp. simpl in Hp. rewrite <- Hp.
    destruct (Pos.compare_cont Eq ma mb); simpl; eexists; split; reflexivity.
  - rewrite (Z.compare_antisym ea eb).
    destruct (ea ?= eb) eqn:E; simpl; try (eexists; split; reflexivity).
    pose proof (Pos.compare_cont_antisym ma mb Eq) as Hp. simpl in Hp. rewrite <- Hp.
    destruct (Pos.compare_cont Eq ma mb); simpl; eexists; split; reflexivity.
Qed.

Lemma flt_negb_fge (a c : spec_float) :
  is_nan a = false -> is_nan c = false -> flt a c = negb (fge a c).
Proof.
  intros Ha Hc. destruct (SFcompare_antisym a c Ha Hc) as (r & H1 & H2).
  unfold flt, fge, SFltb, SFleb. rewrite H1, H2. destruct r; reflexivity.
Qed.

(** An angle that is not a NaN falls into one of the four bins, and
    nothing is written. *)
Lemma discretizeDirection_not_nan (angle : float) :
  is_nan angle = false ->
  snd (discretizeDirection angle) = [] /\ 0 <= fst (discretizeDirection angle) <= 3.
Proof.
  intros Hnan. unfold discretizeDirection.
  set (angle' := if flt angle (f_of_Z 0) then fadd angle (f_of_Z 180) else angle).
  assert (Ha' : is_nan angle' = false).
  { unfold angle'. destruct (flt angle (f_of_Z 0)); auto using fadd_180_not_nan. }
  pose proof (d_of_f_not_nan angle' Ha') as Ha.
  set (a := d_of_f angle') in *.
  rewrite !(flt_negb_fge a) by (exact Ha || reflexivity).
  destruct (fge a (d_half 45)), (fge a (d_half (-45))), (fge a (d_half 315)),
    (fge a (d_half (-315))), (fge a (d_half 135)), (fge a (d_half (-225))),
    (fge a (d_half 225)), (fge a (d_half (-135))); simpl; split; (reflexivity || lia).
Qed.

(** X12.  The last branch of [discretizeDirection] is taken by a NaN and by
    nothing else: a NaN yields -1 and the line "Error: Angle out of range",
    and every other [float], the infinities included, yields a bin from 0 to
    3 and no output. *)
Theorem discretizeDirection_range (angle : float) :
  if is_nan angle
  then discretizeDirection angle = (-1, angle_error)
  else snd (discretizeDirection angle) = [] /\
       0 <= fst (discretizeDirection angle) <= 3.
Proof.
  destruct (is_nan angle) eqn:Hnan.
  - destruct angle; try discriminate. reflexivity.
  - apply discretizeDirection_not_nan, Hnan.
Qed.

(** X13.  The bins on the angles that [atan2] can deliver in whole half
    degrees, -180 to 180: a negative angle is first raised by 180; then
    below 22.5 and from 157.5 on is bin 0, from 22.5 is bin 1, from 67.5 is
    bin 2 and from 112.5 is bin 3, each bound belonging to the bin above
    it. *)
Theorem discretizeDirection_half_degrees (k : Z) :
  -360 <= k <= 360 -> discretizeDirection (f_half k) = (bin_of_half k, []).
Proof.
  intros Hk.
  assert (Hall : forallb (fun i => let k := i - 360 in
                   let r := discretizeDirection (f_half k) in
                   (fst r =? bin_of_half k) && match snd r with [] => true | _ => false end)
                   (zrange 721) = true) by (vm_compute; reflexivity).
  rewrite forallb_forall in Hall.
  assert (Hin : In (k + 360) (zrange 721)) by (apply zrange_In; lia).
  specialize (Hall (k + 360) Hin). cbv beta zeta in Hall.
  replace (k + 360 - 360) with k in Hall by lia.
  apply andb_true_iff in Hall. destruct Hall as [H1 H2]. apply Z.eqb_eq in H1.
  destruct (discretizeDirection (f_half k)) as [b out]. simpl in *. subst b.
  destruct out; [reflexivity | discriminate].
Qed.

Lemma discretizeDirection_half_degrees_witness :
  discretizeDirection (f_half 45) = (bin_of_half 45, []).
Proof. apply (discretizeDirection_half_degrees 45). lia. Defined.

(** ** What [mark] reaches *)

Lemma only_marks_refl (e : CImg) : only_marks e e.
Proof. intros i v H. auto. Qed.

Lemma only_marks_trans (e e1 e2 : CImg) :
  only_marks e e1 -> only_marks e1 e2 -> only_marks e e2.
Proof.
  intros H1 H2 i v Hv. destruct (H2 i v Hv) as [? | Hv1]; [auto|]. apply H1, Hv1.
Qed.

Lemma only_marks_set_255 (e : CImg) (x y : Z) : only_marks e (set_px e x y 255).
Proof.
  intros i v Hv. simpl in Hv. apply list_lookup_insert_Some in Hv.
  destruct Hv as [(_ & <- & _) | (_ & Hv)]; auto.
Qed.

Lemma only_marks_px (e e' : CImg) (a b : Z) :
  only_marks e e' -> width e' = width e -> length (data e') = length (data e) ->
  px e' a b = 255 \/ px e' a b = px e a b.
Proof.
  intros Ho Hw Hl. unfold px, px3. rewrite (offset_dims e e') by exact Hw.
  destruct (data e' !! offset e a b 0) as [v|] eqn:E; simpl.
  - destruct (Ho _ _ E) as [-> | E']; [auto|]. rewrite E'. auto.
  - apply lookup_ge_None in E. rewrite Hl in E.
    rewrite (lookup_ge_None_2 (data e)) by exact E. auto.
Qed.

Lemma marks_only_px (e e' : CImg) (new : list (Z * Z)) (a b : Z) :
  marks e e' new -> only_marks e e' -> px e' a b = 255 \/ px e' a b = px e a b.
Proof. intros Hm Ho. apply only_marks_px; [exact Ho | apply Hm | apply Hm]. Qed.

Lemma inside_dims {T} (e e' : Img T) (a b : Z) :
  width e' = width e -> height e' = height e -> inside e' a b = inside e a b.
Proof. intros Hw Hh. unfold inside. rewrite Hw, Hh. reflexivity. Qed.

Lemma closed_at_keeps (low : Z) (e1 e2 : CImg) (new : list (Z * Z)) (a b : Z) :
  marks e1 e2 new -> only_marks e1 e2 -> closed_at low e1 a b -> closed_at low e2 a b.
Proof.
  intros Hm Ho Hc d Hd Hin.
  rewrite (inside_dims e1 e2) in Hin by apply Hm.
  destruct (Hc d Hd Hin) as [H | H].
  - left. eapply marks_px_255; eassumption.
  - destruct (marks_only_px e1 e2 new (a + fst d) (b + snd d) Hm Ho) as [H' | H']; [auto|].
    right. rewrite H'. exact H.
Qed.

(** [mark] with enough fuel, in full: besides what [marks] says, it changes
    nothing but the pixels it enters, each pixel it enters other than the
    first was at least [low], and it leaves no pixel it entered with a
    neighbour that could still be taken. *)
Lemma mark_visits_flooded (fuel : nat) : forall (e : CImg) (l : list (Z * Z)) (x y low : Z),
  wf_img e -> inb e x y -> px e x y <> 255 ->
  (unmarked (data e) <= fuel)%nat ->
  exists e' new,
    mark_visits fuel e l x y low = Some (e', new ++ l) /\
    marks e e' new /\ In (x, y) new /\ flooded low x y e e' new.
Proof.
  induction fuel as [|fuel IH]; intros e l x y low Hwf Hin Hne Hfuel.
  - exfalso. pose proof (unmarked_pos _ _ _ (px_lookup e x y Hwf Hin) Hne). lia.
  - rewrite mark_visits_S.
    pose proof (marks_set_255 e x y Hwf Hin Hne) as H0.
    assert (Hstep : forall (ds done : list (Z * Z)) (e1 : CImg) (new1 : list (Z * Z)),
               (forall d, In d offsets9 -> In d done \/ In d ds) ->
               marks e e1 new1 -> In (x, y) new1 ->
               only_marks e e1 ->
               (forall a b, inb e a b -> px e1 a b = 255 -> px e a b = 255 \/ In (a, b) new1) ->
               (forall a b, In (a, b) new1 -> (a, b) = (x, y) \/ low <= px e a b) ->
               (forall a b, In (a, b) new1 -> (a, b) <> (x, y) -> closed_at low e1 a b) ->
               (forall d, In d done -> inside e1 (x + fst d) (y + snd d) = true ->
                  px e1 (x + fst d) (y + snd d) = 255 \/ px e1 (x + fst d) (y + snd d) < low) ->
               exists e' new,
                 fold_left (visit_neighbour fuel x y low) ds (Some (e1, new1 ++ l))
                 = Some (e', new ++ l) /\ marks e e' new /\ In (x, y) new /\
                 flooded low x y e e' new).
    { induction ds as [|d ds IHds]; intros done e1 new1 Hcover H1 Hin1 HA HB HC HD HE; simpl.
      - exists e1, new1. split; [reflexivity|]. split; [exact H1|]. split; [exact Hin1|].
        constructor; auto.
        intros a b Hab. destruct (decide ((a, b) = (x, y))) as [[= -> ->] | Hne'].
        + intros d Hd Hins. apply HE; [|exact Hins].
          destruct (Hcover d Hd) as [? | []]; assumption.
        + apply HD; assumption.
      - assert (Hcover' : forall d0, In d0 offsets9 -> In d0 (done ++ [d]) \/ In d0 ds).
        { intros d0 Hd0. destruct (Hcover d0 Hd0) as [? | [<- | ?]].
          - left. apply in_or_app. auto.
          - left. apply in_or_app. right. left. reflexivity.
          - right. assumption. }
        destruct (inside e1 (x + fst d) (y + snd d)
                  && negb (px e1 (x + fst d) (y + snd d) =? 255)
                  && (low <=? px e1 (x + fst d) (y + snd d))) eqn:Hc.
        + rewrite !andb_true_iff in Hc. destruct Hc as [[Hc1 Hc2] Hc3].
          pose proof Hc1 as Hc1'. apply inside_inb in Hc1.
          apply negb_true_iff, Z.eqb_neq in Hc2. apply Z.leb_le in Hc3.
          destruct (IH e1 (new1 ++ l) (x + fst d) (y + snd d) low)
            as (e2 & new2 & Hm & H2 & Hin2 & F2).
          * eapply marks_wf; eassumption.
          * exact Hc1.
          * exact Hc2.
          * pose proof (mk_count _ _ _ H1) as Hcnt.
            assert (0 < length new1)%nat by (destruct new1; [destruct Hin1 | simpl; lia]).
            lia.
          * rewrite Hm, app_assoc.
            assert (Hsame : forall a b, px e1 a b <> 255 -> px e1 a b = px e a b).
            { intros a b Hab. destruct (marks_only_px e e1 new1 a b H1 HA); [contradiction | assumption]. }
            apply (IHds (done ++ [d])); auto.
            -- eapply marks_trans; eassumption.
            -- apply in_or_app. right. exact Hin1.
            -- eapply only_marks_trans; [exact HA | apply F2].
            -- intros a b Hab Hp.
               assert (Hab1 : inb e1 a b).
               { unfold inb in *. rewrite (mk_width _ _ _ H1), (mk_height _ _ _ H1). exact Hab. }
               destruct (fl_logged _ _ _ _ _ _ F2 a b Hab1 Hp) as [Hp1 | Hn2].
               ++ destruct (HB a b Hab Hp1); [auto|]. right. apply in_or_app. auto.
               ++ right. apply in_or_app. auto.
            -- intros a b Hab. apply in_app_or in Hab. destruct Hab as [Hab | Hab]; [|auto].
               right. destruct (mk_new _ _ _ H2 a b Hab) as (_ & Hn255 & _).
               rewrite <- (Hsame a b Hn255).
               destruct (fl_low _ _ _ _ _ _ F2 a b Hab) as [[= -> ->] | ?]; assumption.
            -- intros a b Hab Hnxy. apply in_app_or in Hab. destruct Hab as [Hab | Hab].
               ++ apply (fl_closed _ _ _ _ _ _ F2 a b Hab).
               ++ eapply closed_at_keeps; [exact H2 | apply F2 | apply HD; assumption].
            -- intros d0 Hd0 Hins. apply in_app_or in Hd0. destruct Hd0 as [Hd0 | [<- | []]].
               ++ rewrite (inside_dims e1 e2) in Hins by apply H2.
                  destruct (HE d0 Hd0 Hins) as [H | H].
                  ** left. eapply marks_px_255; eassumption.
                  ** destruct (marks_only_px e1 e2 new2 (x + fst d0) (y + snd d0) H2
                                 (fl_only _ _ _ _ _ _ F2)) as [H' | H']; [auto|].
                     right. rewrite H'. exact H.
               ++ left. apply (mk_new _ _ _ H2 _ _ Hin2).
        + apply (IHds (done ++ [d])); auto.
          intros d0 Hd0 Hins. apply in_app_or in Hd0. destruct Hd0 as [Hd0 | [<- | []]].
          * apply HE; assumption.
          * rewrite Hins in Hc. simpl in Hc.
            apply andb_false_iff in Hc. destruct Hc as [Hc | Hc].
            -- left. apply negb_false_iff, Z.eqb_eq in Hc. exact Hc.
            -- right. apply Z.leb_gt in Hc. exact Hc. }
    apply (Hstep offsets9 [] (set_px e x y 255) [(x, y)]); auto.
    + left; reflexivity.
    + apply only_marks_set_255.
    + intros a b Hab Hp. destruct (decide ((x, y) = (a, b))) as [[= <- <-] | Hne'].
      * right. left. reflexivity.
      * left. rewrite px_set_px_ne in Hp by assumption. exact Hp.
    + intros a b [[= <- <-] | []]. left. reflexivity.
    + intros a b [[= <- <-] | []] Hc. contradiction.
    + intros d [].
Qed.

(** ** The tracking loop, pixel by pixel *)

Lemma tracked_start (high low : Z) (e : CImg) : tracked high low e e [].
Proof.
  constructor; auto using marks_refl.
  - intros a b [].
  - intros a b [].
Qed.

Lemma track_step_tracked (fuel : nat) (high low : Z) (e e1 : CImg)
    (l1 : list (Z * Z)) (x y : Z) :
  wf_img e -> bytes e -> 0 <= low <= 255 -> (length (data e) < fuel)%nat ->
  inb e x y -> tracked high low e e1 l1 ->
  exists e2 l2,
    track_step_visits fuel high low (Some (e1, l1)) x y = Some (e2, l2) /\
    tracked high low e e2 l2 /\
    (high <= px e x y -> px e2 x y = 255).
Proof.
  intros Hwf Hb Hlow Hfuel Hin [Hm Hv Hlog Hlev Hcl].
  pose proof (marks_wf _ _ _ Hm Hwf) as Hwf1.
  assert (Hin1 : inb e1 x y).
  { unfold inb in *. rewrite (mk_width _ _ _ Hm), (mk_height _ _ _ Hm). exact Hin. }
  assert (Hdim : forall a b, inb e a b -> inb e1 a b).
  { intros a b H. unfold inb in *. rewrite (mk_width _ _ _ Hm), (mk_height _ _ _ Hm). exact H. }
  pose proof (mk_bytes _ _ _ Hm Hb) as Hb1.
  pose proof (bytes_px e1 x y Hb1) as Hcur.
  pose proof (bytes_px e x y Hb) as Horig.
  assert (Hcnt : (unmarked (data e1) <= fuel)%nat).
  { pose proof (marks_unmarked_le _ _ _ Hm). pose proof (unmarked_le_length (data e)). lia. }
  unfold track_step_visits.
  destruct ((high <=? px e1 x y) && negb (px e1 x y =? 255)) eqn:Hseed.
  - (* a strong pixel: mark *)
    apply andb_true_iff in Hseed. destruct Hseed as [Hs1 Hs2].
    apply Z.leb_le in Hs1. apply negb_true_iff, Z.eqb_neq in Hs2.
    destruct (mark_visits_flooded fuel e1 l1 x y low Hwf1 Hin1 Hs2 Hcnt)
      as (e2 & new2 & Hmv & Hm2 & Hin2 & F2).
    exists e2, (new2 ++ l1). split; [exact Hmv|]. split.
    + constructor.
      * eapply marks_trans; eassumption.
      * intros a b Hab.
        destruct (marks_only_px e1 e2 new2 a b Hm2 (fl_only _ _ _ _ _ _ F2)) as [H | H]; [auto|].
        rewrite H. apply Hv, Hab.
      * intros a b Hab Hp.
        destruct (fl_logged _ _ _ _ _ _ F2 a b (Hdim a b Hab) Hp) as [H | H].
        -- destruct (Hlog a b Hab H); [auto|]. right. apply in_or_app. auto.
        -- right. apply in_or_app. auto.
      * intros a b Hab. apply in_app_or in Hab. destruct Hab as [Hab | Hab]; [|auto].
        destruct (mk_new _ _ _ Hm2 a b Hab) as (Hiab & Hn255 & _).
        assert (Hiab' : inb e a b).
        { unfold inb in *. rewrite <- (mk_width _ _ _ Hm), <- (mk_height _ _ _ Hm). exact Hiab. }
        pose proof (bytes_px e a b Hb) as Hoab.
        destruct (fl_low _ _ _ _ _ _ F2 a b Hab) as [[= -> ->] | Hge].
        -- destruct (Hv x y Hin) as [H | [H | (H & _ & H')]]; [left; lia | contradiction | lia].
        -- destruct (Hv a b Hiab') as [H | [H | (H & H' & _)]];
             [right; lia | contradiction | lia].
      * intros a b Hab. apply in_app_or in Hab. destruct Hab as [Hab | Hab].
        -- apply (fl_closed _ _ _ _ _ _ F2 a b Hab).
        -- eapply closed_at_keeps; [exact Hm2 | apply F2 | apply Hcl, Hab].
    + intros _. apply (mk_new _ _ _ Hm2 x y Hin2).
  - assert (Hnoseed : px e1 x y = 255 \/ px e1 x y < high).
    { apply andb_false_iff in Hseed. destruct Hseed as [H | H].
      - right. apply Z.leb_gt in H. exact H.
      - left. apply negb_false_iff, Z.eqb_eq in H. exact H. }
    destruct (px e1 x y <? low) eqn:Hl.
    + (* below the low threshold: cleared *)
      apply Z.ltb_lt in Hl.
      assert (Hn255 : px e1 x y <> 255) by lia.
      pose proof (marks_set_0 e1 x y Hwf1 Hin1 Hn255) as Hm0.
      assert (Hchar : px e x y < low /\ px e x y < high).
      { destruct (Hv x y Hin) as [H | [H | (_ & H & H')]]; [lia | lia | lia]. }
      exists (set_px e1 x y 0), l1. split; [reflexivity|]. split.
      * constructor.
        -- pose proof (marks_trans _ _ _ _ _ Hm Hm0) as Ht. simpl in Ht. exact Ht.
        -- intros a b Hab. destruct (decide ((x, y) = (a, b))) as [[= <- <-] | Hne].
           ++ right. right. rewrite px_set_px_eq by assumption. tauto.
           ++ rewrite px_set_px_ne by auto. apply Hv, Hab.
        -- intros a b Hab Hp. destruct (decide ((x, y) = (a, b))) as [[= <- <-] | Hne].
           ++ rewrite px_set_px_eq in Hp by assumption. discriminate.
           ++ rewrite px_set_px_ne in Hp by auto. apply Hlog; assumption.
        -- exact Hlev.
        -- intros a b Hab d Hd Hins.
           rewrite (inside_dims e1 (set_px e1 x y 0)) in Hins by reflexivity.
           destruct (decide ((x, y) = (a + fst d, b + snd d))) as [Heq | Hne].
           ++ right. injection Heq as Hx Hy. rewrite <- Hx, <- Hy.
              rewrite px_set_px_eq by assumption. lia.
           ++ rewrite px_set_px_ne; [apply (Hcl a b Hab d Hd Hins) | exact Hin1 | | exact Hne].
              apply inside_inb. exact Hins.
      * intros Hh. lia.
    + (* left as it is *)
      apply Z.ltb_ge in Hl.
      exists e1, l1. split; [reflexivity|]. split; [constructor; assumption|].
      intros Hh. destruct (Hv x y Hin) as [H | [H | (_ & _ & H)]]; [lia | exact H | lia].
Qed.

(** The tracking loop of [trackEdge], in full. *)
Lemma track_loop_tracked (e : CImg) (high low : Z) :
  wf_img e -> bytes e -> 0 <= low <= 255 ->
  exists e' visits,
    cimg_forXY e (track_step_visits (mark_fuel e) high low) (Some (e, []))
    = Some (e', visits) /\
    tracked high low e e' visits /\
    forall x y, inb e x y -> high <= px e x y -> px e' x y = 255.
Proof.
  intros Hwf Hb Hlow.
  set (P := fun st : option (CImg * list (Z * Z)) =>
              exists e1 l1, st = Some (e1, l1) /\ tracked high low e e1 l1).
  set (Q := fun (x y : Z) (st : option (CImg * list (Z * Z))) =>
              exists e1 l1, st = Some (e1, l1) /\ (high <= px e x y -> px e1 x y = 255)).
  destruct (cimg_forXY_each e (track_step_visits (mark_fuel e) high low) P Q)
    with (s := Some (e, @nil (Z * Z))) as [HP HQ].
  - intros st x y Hin (e1 & l1 & -> & Ht).
    destruct (track_step_tracked (mark_fuel e) high low e e1 l1 x y Hwf Hb Hlow
                (Nat.lt_succ_diag_r _) Hin Ht)
      as (e2 & l2 & Hs & Ht2 & Hq).
    rewrite Hs. split; exists e2, l2; auto.
  - intros st x y x' y' Hin Hin' (e1 & l1 & -> & Ht) (e1' & l1' & [= <- <-] & Hq).
    pose proof (marks_wf _ _ _ (tr_marks _ _ _ _ _ Ht) Hwf) as Hwf1.
    assert (Hin1 : inb e1 x y).
    { unfold inb in *.
      rewrite (mk_width _ _ _ (tr_marks _ _ _ _ _ Ht)), (mk_height _ _ _ (tr_marks _ _ _ _ _ Ht)).
      exact Hin. }
    destruct (track_step_visits_spec (mark_fuel e) high low e1 l1 x y Hwf1 Hin1)
      as (e3 & new & Hs3 & Hm3); [lia | |].
    { pose proof (marks_unmarked_le _ _ _ (tr_marks _ _ _ _ _ Ht)).
      pose proof (unmarked_le_length (data e)). unfold mark_fuel. lia. }
    rewrite Hs3. exists e3, (new ++ l1). split; [reflexivity|].
    intros Hh. eapply marks_px_255; [exact Hm3 | apply Hq, Hh].
  - exists e, []. split; [reflexivity | apply tracked_start].
  - destruct HP as (e' & visits & Hloop & Ht). exists e', visits.
    split; [exact Hloop|]. split; [exact Ht|].
    intros x y Hin Hh. destruct (HQ x y Hin) as (e2 & l2 & Heq & Hq).
    rewrite Hloop in Heq. injection Heq as <- <-. apply Hq, Hh.
Qed.

Lemma lowThreshold_range (e : CImg) : 0 <= lowThreshold_of e <= 255.
Proof.
  pose proof (to_uchar_range (fadd (mean_of e) (fmul (f_of_Z 1) (stdDev_of e)))).
  unfold lowThreshold_of. lia.
Qed.

(** A run of [trackEdge] on an 8-bit grid with at least one pixel, with
    the grid [e'] its tracking loop leaves and the calls of [mark] it makes. *)
Lemma trackEdge_tracked (e : CImg) :
  wf_img e -> bytes e -> 0 < width e * height e < 2 ^ 31 ->
  exists e' visits g,
    tracked (highThreshold_of e) (lowThreshold_of e) e e' visits /\
    (forall x y, inb e x y -> highThreshold_of e <= px e x y -> px e' x y = 255) /\
    trackEdge e = Returned g /\
    forall x y, inb e x y -> px g x y = if px e' x y =? 255 then 255 else 0.
Proof.
  intros Hwf Hb Hn.
  destruct (track_loop_tracked e (highThreshold_of e) (lowThreshold_of e) Hwf Hb
              (lowThreshold_range e)) as (e' & visits & Hloop & Ht & Hstrong).
  assert (Hnz : (numPixels e =? 0) = false).
  { rewrite numPixels_small by lia. apply Z.eqb_neq. lia. }
  assert (Hsim : cimg_forXY e (track_step (mark_fuel e) (highThreshold_of e) (lowThreshold_of e))
                   (Some e)
                 = forget (cimg_forXY e
                      (track_step_visits (mark_fuel e) (highThreshold_of e) (lowThreshold_of e))
                      (Some (e, [])))).
  { apply (cimg_forXY_sim e _ _ (fun s1 s2 => s1 = forget s2)); [|reflexivity].
    intros s1 s2 x y ->. apply track_step_forget. }
  rewrite Hloop in Hsim. simpl in Hsim.
  pose proof (tr_marks _ _ _ _ _ Ht) as Hm.
  pose proof (marks_wf _ _ _ Hm Hwf) as Hwf'.
  destruct (clear_unselected_spec e' Hwf') as (_ & Hpx).
  exists e', visits, (clear_unselected e').
  split; [exact Ht|]. split; [exact Hstrong|]. split.
  - unfold trackEdge. rewrite Hnz, Hsim. reflexivity.
  - intros x y Hin. apply Hpx. unfold inb in *.
    rewrite (mk_width _ _ _ Hm), (mk_height _ _ _ Hm). exact Hin.
Qed.

(** X14.  Every pixel at or above the high threshold comes back 255 from
    [trackEdge]. *)
Theorem trackEdge_keeps_strong (edge : CImg) :
  wf_img edge -> bytes edge -> 0 < width edge * height edge < 2 ^ 31 ->
  exists g,
    trackEdge edge = Returned g /\
    forall x y, inb edge x y -> highThreshold_of edge <= px edge x y -> px g x y = 255.
Proof.
  intros Hwf Hb Hn.
  destruct (trackEdge_tracked edge Hwf Hb Hn) as (e' & visits & g & Ht & Hs & Hg & Hpx).
  exists g. split; [exact Hg|]. intros x y Hin Hh.
  rewrite (Hpx x y Hin), (Hs x y Hin Hh). reflexivity.
Qed.

Lemma trackEdge_keeps_strong_witness :
  exists g,
    trackEdge strip_9_250_150_9 = Returned g /\
    forall x y, inb strip_9_250_150_9 x y ->
      highThreshold_of strip_9_250_150_9 <= px strip_9_250_150_9 x y -> px g x y = 255.
Proof.
  apply (trackEdge_keeps_strong strip_9_250_150_9).
  - unfold wf_img; simpl; lia.
  - unfold bytes; simpl. repeat constructor; lia.
  - simpl; lia.
Defined.

(** X15.  Every pixel below both thresholds comes back 0 from
    [trackEdge], whatever its neighbours are. *)
Theorem trackEdge_drops_weak (edge : CImg) :
  wf_img edge -> bytes edge -> 0 < width edge * height edge < 2 ^ 31 ->
  exists g,
    trackEdge edge = Returned g /\
    forall x y, inb edge x y ->
      px edge x y < lowThreshold_of edge -> px edge x y < highThreshold_of edge ->
      px g x y = 0.
Proof.
  intros Hwf Hb Hn.
  destruct (trackEdge_tracked edge Hwf Hb Hn) as (e' & visits & g & Ht & Hs & Hg & Hpx).
  exists g. split; [exact Hg|]. intros x y Hin Hl Hh.
  rewrite (Hpx x y Hin).
  destruct (px e' x y =? 255) eqn:E; [|reflexivity]. exfalso.
  apply Z.eqb_eq in E.
  pose proof (to_uchar_range (fadd (mean_of edge) (fmul (f_of_Z 2) (stdDev_of edge)))) as Hr.
  fold (highThreshold_of edge) in Hr.
  destruct (tr_logged _ _ _ _ _ Ht x y Hin E) as [H | H]; [lia|].
  destruct (tr_level _ _ _ _ _ Ht x y H); lia.
Qed.

Lemma trackEdge_drops_weak_witness :
  exists g,
    trackEdge strip_9_250_150_9 = Returned g /\
    forall x y, inb strip_9_250_150_9 x y ->
      px strip_9_250_150_9 x y < lowThreshold_of strip_9_250_150_9 ->
      px strip_9_250_150_9 x y < highThreshold_of strip_9_250_150_9 ->
      px g x y = 0.
Proof.
  apply (trackEdge_drops_weak strip_9_250_150_9).
  - unfold wf_img; simpl; lia.
  - unfold bytes; simpl. repeat constructor; lia.
  - simpl; lia.
Defined.

(** X16.  The edges of the result are closed under the hysteresis step:
    when a pixel that was not 255 comes back 255, so does each of its eight
    neighbours whose value was at or above the low threshold. *)
Theorem trackEdge_grows_edges (edge : CImg) :
  wf_img edge -> bytes edge -> 0 < width edge * height edge < 2 ^ 31 ->
  exists g,
    trackEdge edge = Returned g /\
    forall x y dx dy,
      inb edge x y -> px edge x y <> 255 -> px g x y = 255 ->
      -1 <= dx <= 1 -> -1 <= dy <= 1 -> inb edge (x + dx) (y + dy) ->
      lowThreshold_of edge <= px edge (x + dx) (y + dy) ->
      px g (x + dx) (y + dy) = 255.
Proof.
  intros Hwf Hb Hn.
  destruct (trackEdge_tracked edge Hwf Hb Hn) as (e' & visits & g & Ht & Hs & Hg & Hpx).
  exists g. split; [exact Hg|]. intros x y dx dy Hin Hn255 Hgxy Hdx Hdy Hin' Hl.
  pose proof (tr_marks _ _ _ _ _ Ht) as Hm.
  rewrite (Hpx x y Hin) in Hgxy.
  destruct (px e' x y =? 255) eqn:E; [|discriminate]. apply Z.eqb_eq in E.
  destruct (tr_logged _ _ _ _ _ Ht x y Hin E) as [H | H]; [contradiction|].
  assert (Hd : In (dx, dy) offsets9).
  { unfold offsets9.
    assert (Hc : (dx = -1 \/ dx = 0 \/ dx = 1) /\ (dy = -1 \/ dy = 0 \/ dy = 1)) by lia.
    destruct Hc as [[-> | [-> | ->]] [-> | [-> | ->]]]; simpl; tauto. }
  assert (Hins : inside e' (x + dx) (y + dy) = true).
  { apply inside_inb. unfold inb in *.
    rewrite (mk_width _ _ _ Hm), (mk_height _ _ _ Hm). exact Hin'. }
  pose proof (tr_closed _ _ _ _ _ Ht x y H (dx, dy) Hd Hins) as Hc. simpl in Hc.
  rewrite (Hpx _ _ Hin').
  destruct Hc as [Hc | Hc]; [rewrite Hc; reflexivity|].
  destruct (tr_vals _ _ _ _ _ Ht _ _ Hin') as [Hv | [Hv | (_ & Hv & _)]].
  - lia.
  - rewrite Hv. reflexivity.
  - lia.
Qed.

Lemma trackEdge_grows_edges_witness :
  exists g,
    trackEdge strip_9_250_150_9 = Returned g /\
    forall x y dx dy,
      inb strip_9_250_150_9 x y -> px strip_9_250_150_9 x y <> 255 -> px g x y = 255 ->
      -1 <= dx <= 1 -> -1 <= dy <= 1 -> inb strip_9_250_150_9 (x + dx) (y + dy) ->
      lowThreshold_of strip_9_250_150_9 <= px strip_9_250_150_9 (x + dx) (y + dy) ->
      px g (x + dx) (y + dy) = 255.
Proof.
  apply (trackEdge_grows_edges strip_9_250_150_9).
  - unfold wf_img; simpl; lia.
  - unfold bytes; simpl. repeat constructor; lia.
  - simpl; lia.
Defined.

(** ** [mark] on its own *)

(** X19.  A call of [mark] at a pixel that is not 255, with fuel for
    every sample that is not yet 255, returns; it sets that pixel to 255 and
    changes no other pixel except to set to 255 one that was at or above the
    low threshold. *)
Theorem mark_changes_only_what_it_marks (fuel : nat) (edge : CImg) (x y low : Z) :
  wf_img edge -> inb edge x y -> px edge x y <> 255 ->
  (unmarked (data edge) <= fuel)%nat ->
  exists e',
    mark fuel edge x y low = Some e' /\
    width e' = width edge /\ height e' = height edge /\
    px e' x y = 255 /\
    forall a b, inb edge a b ->
      px e' a b = px edge a b \/
      (px edge a b <> 255 /\ px e' a b = 255 /\ ((a, b) = (x, y) \/ low <= px edge a b)).
Proof.
  intros Hwf Hin Hne Hfuel.
  destruct (mark_visits_flooded fuel edge [] x y low Hwf Hin Hne Hfuel)
    as (e' & new & Hmv & Hm & Hinn & F).
  exists e'. split; [rewrite (mark_forget fuel edge [] x y low), Hmv; reflexivity|].
  split; [apply Hm|]. split; [apply Hm|]. split; [apply (mk_new _ _ _ Hm x y Hinn)|].
  intros a b Hab.
  destruct (marks_only_px edge e' new a b Hm (fl_only _ _ _ _ _ _ F)) as [H | H]; [|auto].
  destruct (fl_logged _ _ _ _ _ _ F a b Hab H) as [H' | H']; [left; lia|].
  right. destruct (mk_new _ _ _ Hm a b H') as (_ & H1 & _).
  split; [exact H1|]. split; [exact H|]. apply (fl_low _ _ _ _ _ _ F a b H').
Qed.

Lemma mark_changes_only_what_it_marks_witness :
  exists e',
    mark 4 strip_9_250_150_9 1 0 100 = Some e' /\
    width e' = width strip_9_250_150_9 /\ height e' = height strip_9_250_150_9 /\
    px e' 1 0 = 255 /\
    forall a b, inb strip_9_250_150_9 a b ->
      px e' a b = px strip_9_250_150_9 a b \/
      (px strip_9_250_150_9 a b <> 255 /\ px e' a b = 255 /\
       ((a, b) = (1, 0) \/ 100 <= px strip_9_250_150_9 a b)).
Proof.
  apply (mark_changes_only_what_it_marks 4 strip_9_250_150_9 1 0 100).
  - unfold wf_img; simpl; lia.
  - unfold inb; simpl; lia.
  - vm_compute; lia.
  - simpl; lia.
Defined.

(** X20.  When such a call of [mark] returns, no pixel it has set to 255
    has a neighbour left that it would still take: each of the eight
    neighbours inside the grid is 255 or below the low threshold. *)
Theorem mark_leaves_no_neighbour (fuel : nat) (edge : CImg) (x y low : Z) :
  wf_img edge -> inb edge x y -> px edge x y <> 255 ->
  (unmarked (data edge) <= fuel)%nat ->
  exists e',
    mark fuel edge x y low = Some e' /\
    forall a b dx dy,
      inb edge a b -> px edge a b <> 255 -> px e' a b = 255 ->
      -1 <= dx <= 1 -> -1 <= dy <= 1 -> inb edge (a + dx) (b + dy) ->
      px e' (a + dx) (b + dy) = 255 \/ px e' (a + dx) (b + dy) < low.
Proof.
  intros Hwf Hin Hne Hfuel.
  destruct (mark_visits_flooded fuel edge [] x y low Hwf Hin Hne Hfuel)
    as (e' & new & Hmv & Hm & Hinn & F).
  exists e'. split; [rewrite (mark_forget fuel edge [] x y low), Hmv; reflexivity|].
  intros a b dx dy Hab Hn255 Hp Hdx Hdy Hin'.
  destruct (fl_logged _ _ _ _ _ _ F a b Hab Hp) as [H | H]; [contradiction|].
  assert (Hd : In (dx, dy) offsets9).
  { unfold offsets9.
    assert (Hc : (dx = -1 \/ dx = 0 \/ dx = 1) /\ (dy = -1 \/ dy = 0 \/ dy = 1)) by lia.
    destruct Hc as [[-> | [-> | ->]] [-> | [-> | ->]]]; simpl; tauto. }
  apply (fl_closed _ _ _ _ _ _ F a b H (dx, dy) Hd).
  apply inside_inb. unfold inb in *. simpl.
  rewrite (mk_width _ _ _ Hm), (mk_height _ _ _ Hm). exact Hin'.
Qed.

Lemma mark_leaves_no_neighbour_witness :
  exists e',
    mark 4 strip_9_250_150_9 1 0 100 = Some e' /\
    forall a b dx dy,
      inb strip_9_250_150_9 a b -> px strip_9_250_150_9 a b <> 255 -> px e' a b = 255 ->
      -1 <= dx <= 1 -> -1 <= dy <= 1 -> inb strip_9_250_150_9 (a + dx) (b + dy) ->
      px e' (a + dx) (b + dy) = 255 \/ px e' (a + dx) (b + dy) < 100.
Proof.
  apply (mark_leaves_no_neighbour 4 strip_9_250_150_9 1 0 100).
  - unfold wf_img; simpl; lia.
  - unfold inb; simpl; lia.
  - vm_compute; lia.
  - simpl; lia.
Defined.

(** ** Gray conversion *)

(** X3.  The gray image of a color image has the size of the image, one
    8-bit sample per pixel, and at every pixel the weighted sum of the three
    color samples of that pixel converted to [unsigned char]. *)
Theorem toGray_pixels (image : CImg) :
  rgb_img image ->
  wf_img (toGray image) /\ bytes (toGray image) /\
  width (toGray image) = width image /\ height (toGray image) = height image /\
  forall x y, inb image x y -> px (toGray image) x y = grayValue image x y.
Proof.
  intros (HW & HH & _).
  set (g0 := CImg_new (width image) (height image)).
  set (P := fun g : CImg => width g = width image /\ height g = height image /\
                            length (data g) = length (data g0)).
  assert (Hwf : forall g, P g -> wf_img g).
  { intros g (Hw & Hh & Hl). unfold wf_img. rewrite Hw, Hh, Hl. unfold g0; simpl.
    rewrite length_replicate. auto. }
  assert (Hinb : forall g x y, P g -> inb image x y -> inb g x y).
  { intros g x y (Hw & Hh & _) Hin. unfold inb in *. rewrite Hw, Hh. exact Hin. }
  destruct (cimg_forXY_each image
              (fun (grayImage : CImg) x y => set_px grayImage x y (grayValue image x y))
              P (fun x y g => px g x y = grayValue image x y)) with (s := g0) as [HP HQ].
  - intros g x y Hin HPg. split.
    + destruct HPg as (Hw & Hh & Hl). unfold P; simpl. rewrite length_insert. auto.
    + apply px_set_px_eq; auto.
  - intros g x y x' y' Hin Hin' HPg HQg.
    destruct (decide ((x, y) = (x', y'))) as [[= <- <-] | Hne].
    + apply px_set_px_eq; auto.
    + rewrite px_set_px_ne by auto. exact HQg.
  - unfold P, g0; simpl. auto.
  - fold (toGray image) in HP, HQ.
    split; [apply Hwf, HP|]. split; [apply toGray_bytes|].
    split; [apply HP|]. split; [apply HP | exact HQ].
Qed.

Lemma toGray_pixels_witness :
  wf_img (toGray (rgb_flat 2 2 100)) /\ bytes (toGray (rgb_flat 2 2 100)) /\
  width (toGray (rgb_flat 2 2 100)) = width (rgb_flat 2 2 100) /\
  height (toGray (rgb_flat 2 2 100)) = height (rgb_flat 2 2 100) /\
  forall x y, inb (rgb_flat 2 2 100) x y ->
    px (toGray (rgb_flat 2 2 100)) x y = grayValue (rgb_flat 2 2 100) x y.
Proof.
  apply (toGray_pixels (rgb_flat 2 2 100)).
  unfold rgb_img; simpl; lia.
Defined.

(** X4.  The three weights do not add up to 1 in [double] arithmetic: a
    pixel whose three color samples all equal [v] gets the gray value [v]
    or [v - 1], never anything else. *)
Theorem grayValue_neutral (image : CImg) (x y v : Z) :
  0 <= v <= 255 ->
  px3 0 image x y 0 = v -> px3 0 image x y 1 = v -> px3 0 image x y 2 = v ->
  v - 1 <= grayValue image x y <= v.
Proof.
  intros Hv H0 H1 H2. unfold grayValue. rewrite H0, H1, H2.
  assert (Hall : forallb (fun v =>
                   let g := to_uchar (dadd (dadd (dmul c_0299 (d_of_Z v)) (dmul c_0587 (d_of_Z v)))
                                           (dmul c_0114 (d_of_Z v))) in
                   (v - 1 <=? g) && (g <=? v)) (zrange 256) = true)
    by (vm_compute; reflexivity).
  rewrite forallb_forall in Hall.
  assert (Hin : In v (zrange 256)) by (apply zrange_In; lia).
  specialize (Hall v Hin). cbv beta zeta in Hall.
  apply andb_true_iff in Hall. destruct Hall as [Ha Hb].
  apply Z.leb_le in Ha, Hb. lia.
Qed.

Lemma grayValue_neutral_witness :
  100 - 1 <= grayValue (rgb_flat 2 2 100) 1 1 <= 100.
Proof.
  apply (grayValue_neutral (rgb_flat 2 2 100) 1 1 100).
  - lia.
  - reflexivity.
  - reflexivity.
  - reflexivity.
Defined.

(** ** The Sobel sums *)

Section Sobel.
Variable atan2_deg : Z -> Z -> float.

(** X7.  Turning the 3x3 neighbourhood of a pixel by half a turn negates
    both sums of [calculateGradient]: the magnitude stays, and [atan2] is
    asked for the opposite direction. *)
Theorem sobel_rotation (image image' : CImg) (x y x' y' : Z) :
  (forall dx dy, -1 <= dx <= 1 -> -1 <= dy <= 1 ->
     px image' (x' + dx) (y' + dy) = px image (x - dx) (y - dy)) ->
  sobel_sums image' x' y' = (- fst (sobel_sums image x y), - snd (sobel_sums image x y)) /\
  mag (calculateGradient atan2_deg image' x' y') = mag (calculateGradient atan2_deg image x y) /\
  dir (calculateGradient atan2_deg image' x' y')
  = atan2_deg (- snd (sobel_sums image x y)) (- fst (sobel_sums image x y)).
Proof.
  intros Hrot.
  assert (Hs : sobel_sums image' x' y'
               = (- fst (sobel_sums image x y), - snd (sobel_sums image x y))).
  { rewrite !sobel_sums_closed. unfold sobel_x, sobel_y. simpl.
    replace (x' - 1) with (x' + -1) by lia. replace (y' - 1) with (y' + -1) by lia.
    pose proof (Hrot (-1) (-1)) as H1. pose proof (Hrot (-1) 0) as H2.
    pose proof (Hrot (-1) 1) as H3. pose proof (Hrot 0 (-1)) as H4.
    pose proof (Hrot 0 1) as H5. pose proof (Hrot 1 (-1)) as H6.
    pose proof (Hrot 1 0) as H7. pose proof (Hrot 1 1) as H8.
    replace (x' + 0) with x' in * by lia. replace (y' + 0) with y' in * by lia.
    replace (x - 0) with x in * by lia. replace (y - 0) with y in * by lia.
    replace (x - -1) with (x + 1) in * by lia. replace (y - -1) with (y + 1) in * by lia.
    rewrite H1, H2, H3, H4, H5, H6, H7, H8 by lia. f_equal; ring. }
  split; [exact Hs|]. unfold calculateGradient. rewrite Hs.
  destruct (sobel_sums image x y) as [gx gy]. simpl.
  rewrite !Z.mul_opp_opp. split; reflexivity.
Qed.

(** X8.  Where the nine pixels of the neighbourhood are equal both sums
    are 0, and so is the magnitude. *)
Theorem sobel_flat (image : CImg) (x y v : Z) :
  (forall dx dy, -1 <= dx <= 1 -> -1 <= dy <= 1 -> px image (x + dx) (y + dy) = v) ->
  sobel_sums image x y = (0, 0) /\ mag (calculateGradient atan2_deg image x y) = 0.
Proof.
  intros Hflat.
  assert (Hs : sobel_sums image x y = (0, 0)).
  { rewrite sobel_sums_closed. unfold sobel_x, sobel_y.
    replace (x - 1) with (x + -1) by lia. replace (y - 1) with (y + -1) by lia.
    pose proof (Hflat 0 (-1)) as H4. pose proof (Hflat 0 1) as H5.
    pose proof (Hflat (-1) 0) as H2. pose proof (Hflat 1 0) as H7.
    replace (x + 0) with x in * by lia. replace (y + 0) with y in * by lia.
    rewrite (Hflat (-1) (-1)), (Hflat (-1) 1), (Hflat 1 (-1)), (Hflat 1 1),
      H2, H4, H5, H7 by lia.
    f_equal; ring. }
  split; [exact Hs|]. unfold calculateGradient. rewrite Hs. reflexivity.
Qed.

(** X9.  On 8-bit samples the [int] arithmetic of [calculateGradient]
    stays far from overflow: each sum lies between -1020 and 1020, and the
    sum of the squares is at most 2080800. *)
Theorem sobel_no_overflow (image : CImg) (x y : Z) :
  bytes image ->
  -1020 <= fst (sobel_sums image x y) <= 1020 /\
  -1020 <= snd (sobel_sums image x y) <= 1020 /\
  0 <= fst (sobel_sums image x y) * fst (sobel_sums image x y)
       + snd (sobel_sums image x y) * snd (sobel_sums image x y) <= 2080800.
Proof.
  intros Hb. rewrite sobel_sums_closed. simpl.
  destruct (sobel_bounds image x y Hb) as [Hx Hy].
  split; [exact Hx|]. split; [exact Hy|]. nia.
Qed.

End Sobel.

Lemma sobel_rotation_witness :
  sobel_sums ramp_3x3_turned 1 1
  = (- fst (sobel_sums ramp_3x3 1 1), - snd (sobel_sums ramp_3x3 1 1)) /\
  mag (calculateGradient zero_atan ramp_3x3_turned 1 1)
  = mag (calculateGradient zero_atan ramp_3x3 1 1) /\
  dir (calculateGradient zero_atan ramp_3x3_turned 1 1)
  = zero_atan (- snd (sobel_sums ramp_3x3 1 1)) (- fst (sobel_sums ramp_3x3 1 1)).
Proof.
  apply (sobel_rotation zero_atan ramp_3x3 ramp_3x3_turned 1 1 1 1).
  intros dx dy Hdx Hdy.
  assert (Hx : dx = -1 \/ dx = 0 \/ dx = 1) by lia.
  assert (Hy : dy = -1 \/ dy = 0 \/ dy = 1) by lia.
  destruct Hx as [-> | [-> | ->]], Hy as [-> | [-> | ->]]; reflexivity.
Defined.

Lemma sobel_flat_witness :
  sobel_sums (flat_grid 3 3 7) 1 1 = (0, 0) /\
  mag (calculateGradient zero_atan (flat_grid 3 3 7) 1 1) = 0.
Proof.
  apply (sobel_flat zero_atan (flat_grid 3 3 7) 1 1 7).
  intros dx dy Hdx Hdy.
  assert (Hx : dx = -1 \/ dx = 0 \/ dx = 1) by lia.
  assert (Hy : dy = -1 \/ dy = 0 \/ dy = 1) by lia.
  destruct Hx as [-> | [-> | ->]], Hy as [-> | [-> | ->]]; reflexivity.
Defined.

Lemma sobel_no_overflow_witness :
  -1020 <= fst (sobel_sums ramp_3x3 1 1) <= 1020 /\
  -1020 <= snd (sobel_sums ramp_3x3 1 1) <= 1020 /\
  0 <= fst (sobel_sums ramp_3x3 1 1) * fst (sobel_sums ramp_3x3 1 1)
       + snd (sobel_sums ramp_3x3 1 1) * snd (sobel_sums ramp_3x3 1 1) <= 2080800.
Proof.
  apply (sobel_no_overflow ramp_3x3 1 1).
  unfold bytes; simpl. repeat constructor; lia.
Defined.

(** ** The grids of the gradient stage *)

Lemma no_nan_pxf (d : CImgFloat) (x y : Z) : no_nan d -> is_nan (pxf d x y) = false.
Proof.
  intros Hd. unfold pxf, px3.
  match goal with |- context [default _ ?o] => destruct o as [v|] eqn:E end;
    simpl; [|reflexivity].
  unfold no_nan in Hd. rewrite Forall_forall in Hd.
  apply Hd. eapply list_elem_of_lookup_2. exact E.
Qed.

Section GradientShape.
Variable atan2_deg : Z -> Z -> float.

Lemma mag_bytes (img : CImg) (x y : Z) :
  0 <= mag (calculateGradient atan2_deg img x y) <= 255.
Proof.
  unfold calculateGradient. destruct (sobel_sums img x y) as [gx gy]. cbn [mag].
  pose proof (to_uchar_range (dsqrt (d_of_Z (gx * gx + gy * gy)))). lia.
Qed.

(** X5.  [gradientInGray] on grids of the size of the image, whatever
    they hold: both grids keep their size, the magnitudes stored are 8-bit
    samples, and every pixel that is not in the interior keeps the magnitude
    and the direction it had. *)
Theorem gradientInGray_shape (image gradient : CImg) (direction : CImgFloat) :
  width gradient = width image -> height gradient = height image ->
  width direction = width image -> height direction = height image ->
  (width (fst (gradientInGray atan2_deg image gradient direction)) = width image /\
   height (fst (gradientInGray atan2_deg image gradient direction)) = height image /\
   length (data (fst (gradientInGray atan2_deg image gradient direction)))
   = length (data gradient)) /\
  (width (snd (gradientInGray atan2_deg image gradient direction)) = width image /\
   height (snd (gradientInGray atan2_deg image gradient direction)) = height image /\
   length (data (snd (gradientInGray atan2_deg image gradient direction)))
   = length (data direction)) /\
  (bytes gradient -> bytes (fst (gradientInGray atan2_deg image gradient direction))) /\
  forall x y, inb image x y -> interior image x y = false ->
    px (fst (gradientInGray atan2_deg image gradient direction)) x y = px gradient x y /\
    pxf (snd (gradientInGray atan2_deg image gradient direction)) x y = pxf direction x y.
Proof.
  intros HgW HgH HdW HdH.
  assert (Hshape :
    (width (fst (gradientInGray atan2_deg image gradient direction)) = width image /\
     height (fst (gradientInGray atan2_deg image gradient direction)) = height image /\
     length (data (fst (gradientInGray atan2_deg image gradient direction)))
     = length (data gradient)) /\
    (width (snd (gradientInGray atan2_deg image gradient direction)) = width image /\
     height (snd (gradientInGray atan2_deg image gradient direction)) = height image /\
     length (data (snd (gradientInGray atan2_deg image gradient direction)))
     = length (data direction)) /\
    (bytes gradient -> bytes (fst (gradientInGray atan2_deg image gradient direction)))).
  { unfold gradientInGray.
    apply (cimg_forXY_inv (toGray image) _
             (fun st : CImg * CImgFloat =>
                (width (fst st) = width image /\ height (fst st) = height image /\
                 length (data (fst st)) = length (data gradient)) /\
                (width (snd st) = width image /\ height (snd st) = height image /\
                 length (data (snd st)) = length (data direction)) /\
                (bytes gradient -> bytes (fst st)))).
    - intros [g d] x y _ ((Hw & Hh & Hl) & (Hw' & Hh' & Hl') & Hb).
      cbn [fst snd] in *.
      destruct (interior (toGray image) x y); cbn [fst snd]; [|tauto].
      unfold set_px; cbn [width height data]. rewrite !length_insert.
      split; [auto|]. split; [auto|].
      intros Hbg. unfold bytes; cbn [data]. apply Forall_insert; [apply Hb, Hbg|].
      apply mag_bytes.
    - simpl. tauto. }
  destruct Hshape as (H1 & H2 & H3).
  split; [exact H1|]. split; [exact H2|]. split; [exact H3|].
  intros x y Hin Hint. apply gradientInGray_frame; auto.
  unfold interior in Hint. unfold inb in Hin. unfold on_border.
  rewrite !andb_false_iff in Hint.
  destruct Hint as [[[H | H] | H] | H]; apply Z.ltb_ge in H; lia.
Qed.

(** X6.  The gradient stage puts no NaN into the direction grid unless
    [atan2] delivers one. *)
Theorem gradientInGray_no_nan (image gradient : CImg) (direction : CImgFloat) :
  (forall gy gx, is_nan (atan2_deg gy gx) = false) ->
  no_nan direction -> no_nan (snd (gradientInGray atan2_deg image gradient direction)).
Proof.
  intros Hatan Hd. unfold gradientInGray.
  apply (cimg_forXY_inv (toGray image) _ (fun st : CImg * CImgFloat => no_nan (snd st)));
    [|exact Hd].
  intros [g d] x y _ Hn. simpl in *.
  destruct (interior (toGray image) x y); simpl; [|exact Hn].
  unfold no_nan; simpl. apply Forall_insert; [exact Hn|].
  unfold calculateGradient. destruct (sobel_sums (toGray image) x y). cbn [dir]. apply Hatan.
Qed.

End GradientShape.

Lemma gradientInGray_shape_witness :
  (width (fst (gradientInGray zero_atan (rgb_flat 3 3 100) (CImg_new 3 3)
                 (CImgFloat_new 3 3))) = width (rgb_flat 3 3 100) /\
   height (fst (gradientInGray zero_atan (rgb_flat 3 3 100) (CImg_new 3 3)
                  (CImgFloat_new 3 3))) = height (rgb_flat 3 3 100) /\
   length (data (fst (gradientInGray zero_atan (rgb_flat 3 3 100) (CImg_new 3 3)
                        (CImgFloat_new 3 3))))
   = length (data (CImg_new 3 3))) /\
  (width (snd (gradientInGray zero_atan (rgb_flat 3 3 100) (CImg_new 3 3)
                 (CImgFloat_new 3 3))) = width (rgb_flat 3 3 100) /\
   height (snd (gradientInGray zero_atan (rgb_flat 3 3 100) (CImg_new 3 3)
                  (CImgFloat_new 3 3))) = height (rgb_flat 3 3 100) /\
   length (data (snd (gradientInGray zero_atan (rgb_flat 3 3 100) (CImg_new 3 3)
                        (CImgFloat_new 3 3))))
   = length (data (CImgFloat_new 3 3))) /\
  (bytes (CImg_new 3 3) ->
   bytes (fst (gradientInGray zero_atan (rgb_flat 3 3 100) (CImg_new 3 3)
                 (CImgFloat_new 3 3)))) /\
  forall x y, inb (rgb_flat 3 3 100) x y -> interior (rgb_flat 3 3 100) x y = false ->
    px (fst (gradientInGray zero_atan (rgb_flat 3 3 100) (CImg_new 3 3)
               (CImgFloat_new 3 3))) x y = px (CImg_new 3 3) x y /\
    pxf (snd (gradientInGray zero_atan (rgb_flat 3 3 100) (CImg_new 3 3)
                (CImgFloat_new 3 3))) x y = pxf (CImgFloat_new 3 3) x y.
Proof.
  apply (gradientInGray_shape zero_atan (rgb_flat 3 3 100) (CImg_new 3 3)
           (CImgFloat_new 3 3)); reflexivity.
Defined.

Lemma gradientInGray_no_nan_witness :
  no_nan (snd (gradientInGray zero_atan (rgb_flat 3 3 100) (CImg_new 3 3)
                 (CImgFloat_new 3 3))).
Proof.
  apply (gradientInGray_no_nan zero_atan (rgb_flat 3 3 100) (CImg_new 3 3)
           (CImgFloat_new 3 3)).
  - intros gy gx. reflexivity.
  - unfold no_nan; simpl. repeat constructor.
Defined.

(** ** Suppression *)

Lemma nonMaxSuppression_unfold (edge gradient : CImg) (direction : CImgFloat) :
  nonMaxSuppression edge gradient direction
  = cimg_forXY edge
      (fun st x y =>
         if interior edge x y
         then (set_px (fst st) x y (suppressed gradient direction x y),
               snd st ++ snd (discretizeDirection (pxf direction x y)))
         else st)
      (edge, []).
Proof.
  unfold nonMaxSuppression.
  apply (cimg_forXY_sim edge _ _ (fun s1 s2 => s1 = s2)); [|reflexivity].
  intros s1 [e out] x y ->. cbn [fst snd].
  destruct (interior edge x y); [|reflexivity].
  unfold suppressed.
  destruct (discretizeDirection (pxf direction x y)) as [d msg]. cbn [fst snd].
  destruct (neighbour_mags gradient d x y) as [mag1 mag2]. cbn [fst snd].
  destruct ((mag1 <=? px gradient x y) && (mag2 <=? px gradient x y)); reflexivity.
Qed.

Lemma suppressed_bytes (gradient : CImg) (direction : CImgFloat) (x y : Z) :
  bytes gradient -> 0 <= suppressed gradient direction x y <= 255.
Proof.
  intros Hb. unfold suppressed. pose proof (bytes_px gradient x y Hb).
  destruct (_ && _); lia.
Qed.

(** X10.  [nonMaxSuppression] keeps the size of the edge grid, writes
    8-bit samples when the magnitudes are 8-bit samples, and leaves every
    pixel that is not in the interior as it was. *)
Theorem nonMaxSuppression_shape (edge gradient : CImg) (direction : CImgFloat) :
  width (fst (nonMaxSuppression edge gradient direction)) = width edge /\
  height (fst (nonMaxSuppression edge gradient direction)) = height edge /\
  length (data (fst (nonMaxSuppression edge gradient direction))) = length (data edge) /\
  (bytes edge -> bytes gradient -> bytes (fst (nonMaxSuppression edge gradient direction))) /\
  forall x y, inb edge x y -> interior edge x y = false ->
    px (fst (nonMaxSuppression edge gradient direction)) x y = px edge x y.
Proof.
  rewrite nonMaxSuppression_unfold.
  set (P := fun st : CImg * Out =>
              width (fst st) = width edge /\ height (fst st) = height edge /\
              length (data (fst st)) = length (data edge) /\
              (bytes edge -> bytes gradient -> bytes (fst st)) /\
              forall x y, inb edge x y -> interior edge x y = false ->
                px (fst st) x y = px edge x y).
  apply (cimg_forXY_inv edge _ P).
  - intros st x y Hin (Hw & Hh & Hl & Hb & Hf).
    destruct (interior edge x y) eqn:Hint; [|unfold P; auto].
    unfold P; simpl. rewrite length_insert. repeat split; auto.
    + intros Hbe Hbg. unfold bytes; simpl. apply Forall_insert; [apply Hb; assumption|].
      apply suppressed_bytes, Hbg.
    + intros x' y' Hin' Hint'. rewrite <- (Hf x' y' Hin' Hint').
      apply px_set_px_ne.
      * unfold inb in *. rewrite Hw, Hh. exact Hin.
      * unfold inb in *. rewrite Hw, Hh. exact Hin'.
      * intros [= -> ->]. congruence.
  - unfold P; simpl. auto.
Qed.

(** X11.  On a direction grid without NaN the suppression writes nothing
    to the output: the error line of [discretizeDirection] never appears. *)
Theorem nonMaxSuppression_silent (edge gradient : CImg) (direction : CImgFloat) :
  no_nan direction -> snd (nonMaxSuppression edge gradient direction) = [].
Proof.
  intros Hd. rewrite nonMaxSuppression_unfold.
  apply (cimg_forXY_inv edge _ (fun st : CImg * Out => snd st = [])); [|reflexivity].
  intros [e out] x y _ Hs. cbn [snd] in *.
  destruct (interior edge x y); [|exact Hs]. cbn [snd]. subst out. cbn [app].
  apply discretizeDirection_not_nan, no_nan_pxf, Hd.
Qed.

Lemma nonMaxSuppression_silent_witness :
  snd (nonMaxSuppression (CImg_new 3 3) peak_3x3 (CImgFloat_new 3 3)) = [].
Proof.
  apply (nonMaxSuppression_silent (CImg_new 3 3) peak_3x3 (CImgFloat_new 3 3)).
  unfold no_nan; simpl. repeat constructor.
Defined.

(** ** Tracking a grid of one value *)

Lemma total_replicate (n : nat) (v : Z) : total (replicate n v) = Z.of_nat n * v.
Proof. induction n as [|n IH]; [reflexivity|]. unfold total in *. simpl replicate. simpl fold_right. lia. Qed.

Lemma wf_flat_grid (w h v : Z) : 0 <= w -> 0 <= h -> wf_img (flat_grid w h v).
Proof. intros. unfold wf_img, flat_grid; simpl. rewrite length_replicate. auto. Qed.

Lemma bytes_flat_grid (w h v : Z) : 0 <= v <= 255 -> bytes (flat_grid w h v).
Proof. intros. unfold bytes, flat_grid; simpl. apply Forall_replicate. assumption. Qed.

Lemma px_flat_grid (w h v x y : Z) :
  0 <= w -> 0 <= h -> inb (flat_grid w h v) x y -> px (flat_grid w h v) x y = v.
Proof.
  intros Hw Hh Hin.
  pose proof (px_lookup (flat_grid w h v) x y (wf_flat_grid w h v Hw Hh) Hin) as Hl.
  unfold flat_grid in Hl at 1. simpl in Hl.
  apply lookup_replicate in Hl. apply Hl.
Qed.

Lemma mean_of_flat_grid (w h v : Z) :
  0 < w -> 0 < h -> 255 * (w * h) < 2 ^ 32 -> 0 <= v <= 255 ->
  mean_of (flat_grid w h v) = f_of_Z v.
Proof.
  intros Hw Hh Hn Hv. unfold mean_of.
  rewrite pixel_sum_total;
    [| apply wf_flat_grid; lia | apply bytes_flat_grid; lia | simpl; lia].
  rewrite numPixels_small by (simpl; nia).
  simpl. rewrite total_replicate, Z2Nat.id by nia.
  rewrite Z.mul_comm, Z.div_mul by nia. reflexivity.
Qed.

Lemma pixel_sumSq_flat_grid (w h v : Z) :
  0 < w -> 0 < h -> 255 * (w * h) < 2 ^ 32 -> 0 <= v <= 255 ->
  pixel_sumSq (flat_grid w h v) = 0.
Proof.
  intros Hw Hh Hn Hv. unfold pixel_sumSq. rewrite mean_of_flat_grid by assumption.
  apply (cimg_forXY_inv (flat_grid w h v) _ (fun s => s = 0)); [|reflexivity].
  intros s x y Hin ->. rewrite px_flat_grid by (assumption || lia).
  assert (Hall : forallb (fun v =>
                   to_uint (fadd (f_of_Z 0)
                              (fmul (fsub (f_of_Z v) (f_of_Z v))
                                    (fsub (f_of_Z v) (f_of_Z v)))) =? 0)
                   (zrange 256) = true) by (vm_compute; reflexivity).
  rewrite forallb_forall in Hall.
  apply Z.eqb_eq. apply (Hall v). apply zrange_In. lia.
Qed.

Lemma thresholds_flat_grid (w h v : Z) :
  0 < w -> 0 < h -> 255 * (w * h) < 2 ^ 32 -> 0 <= v <= 255 ->
  highThreshold_of (flat_grid w h v) = v /\ lowThreshold_of (flat_grid w h v) = v.
Proof.
  intros Hw Hh Hn Hv. unfold highThreshold_of, lowThreshold_of, stdDev_of.
  rewrite pixel_sumSq_flat_grid, mean_of_flat_grid by assumption. rewrite Zdiv_0_l.
  assert (Hall : forallb (fun v =>
                   (to_uchar (fadd (f_of_Z v)
                                (fmul (f_of_Z 2) (f_of_d (dsqrt (d_of_Z 0))))) =? v)
                   && (to_uchar (fadd (f_of_Z v)
                                   (fmul (f_of_Z 1) (f_of_d (dsqrt (d_of_Z 0))))) =? v))
                   (zrange 256) = true) by (vm_compute; reflexivity).
  rewrite forallb_forall in Hall.
  assert (Hin : In v (zrange 256)) by (apply zrange_In; lia).
  specialize (Hall v Hin). cbv beta in Hall.
  apply andb_true_iff in Hall. destruct Hall as [H1 H2].
  apply Z.eqb_eq in H1, H2. split; assumption.
Qed.

(** X17.  A grid whose samples are all equal has deviation 0, so both
    thresholds equal the common value and every pixel counts as a strong
    edge: the whole grid comes back 255, whatever the value was. *)
Theorem trackEdge_constant_grid (w h v : Z) :
  0 < w -> 0 < h -> 255 * (w * h) < 2 ^ 32 -> 0 <= v <= 255 ->
  highThreshold_of (flat_grid w h v) = v /\
  lowThreshold_of (flat_grid w h v) = v /\
  trackEdge (flat_grid w h v) = Returned (flat_grid w h 255).
Proof.
  intros Hw Hh Hn Hv.
  destruct (thresholds_flat_grid w h v Hw Hh Hn Hv) as [Hhi Hlo].
  split; [exact Hhi|]. split; [exact Hlo|].
  set (e := flat_grid w h v) in *.
  assert (Hwf : wf_img e) by (apply wf_flat_grid; lia).
  assert (Hb : bytes e) by (apply bytes_flat_grid; lia).
  assert (Hsz : 0 < width e * height e < 2 ^ 31) by (simpl; nia).
  destruct (trackEdge_tracked e Hwf Hb Hsz) as (e' & visits & g & _ & Hs & Hg & Hpx).
  destruct (trackEdge_result e Hwf Hsz) as (e'' & g' & _ & Hg' & Hwfg & Hgw & Hgh & _).
  rewrite Hg in Hg'. injection Hg' as <-.
  rewrite Hg. f_equal.
  apply (img_ext (flat_grid w h 255) g).
  - apply wf_flat_grid; lia.
  - exact Hwfg.
  - exact Hgw.
  - exact Hgh.
  - intros x y Hin. rewrite px_flat_grid by (assumption || lia).
    assert (Hin' : inb e x y) by exact Hin.
    rewrite (Hpx x y Hin'), (Hs x y Hin'); [reflexivity|].
    rewrite Hhi. unfold e. rewrite px_flat_grid by (assumption || lia). lia.
Qed.

Lemma trackEdge_constant_grid_witness :
  highThreshold_of (flat_grid 3 2 100) = 100 /\
  lowThreshold_of (flat_grid 3 2 100) = 100 /\
  trackEdge (flat_grid 3 2 100) = Returned (flat_grid 3 2 255).
Proof. apply (trackEdge_constant_grid 3 2 100); lia. Defined.

(** ** The driver *)

Lemma nonMaxSuppression_dims (edge gradient : CImg) (direction : CImgFloat) :
  width (fst (nonMaxSuppression edge gradient direction)) = width edge /\
  height (fst (nonMaxSuppression edge gradient direction)) = height edge /\
  length (data (fst (nonMaxSuppression edge gradient direction))) = length (data edge).
Proof.
  rewrite nonMaxSuppression_unfold.
  apply (cimg_forXY_inv edge _
           (fun st : CImg * Out =>
              width (fst st) = width edge /\ height (fst st) = height edge /\
              length (data (fst st)) = length (data edge))); [|auto].
  intros st x y _ (Hw & Hh & Hl).
  destruct (interior edge x y); [|auto].
  cbn [fst]. unfold set_px; cbn [width height data]. rewrite length_insert. auto.
Qed.

Section DriverProps.
Variable atan2_deg : Z -> Z -> float.

Lemma extractEdgeCanny_tracks (image : CImg) (method : Z) :
  exists edge,
    snd (extractEdgeCanny atan2_deg image method) = trackEdge edge /\
    width edge = width image /\ height edge = height image /\
    length (data edge) = Z.to_nat (width image * height image).
Proof.
  unfold extractEdgeCanny.
  destruct (if method =? 0
            then (gradientInGray atan2_deg image
                    (CImg_new (width image) (height image))
                    (CImgFloat_new (width image) (height image)), [])
            else gradientInColor image (CImg_new (width image) (height image))
                   (CImgFloat_new (width image) (height image)))
    as [[gradient direction] out1].
  pose proof (nonMaxSuppression_dims (CImg_new (width image) (height image))
                gradient direction) as (Hw & Hh & Hl).
  destruct (nonMaxSuppression (CImg_new (width image) (height image)) gradient direction)
    as [edge out2].
  cbn [fst snd] in *. exists edge.
  split; [reflexivity|]. split; [exact Hw|]. split; [exact Hh|].
  rewrite Hl. unfold CImg_new; cbn [data]. apply length_replicate.
Qed.

(** X1.  Whatever the method, on an image with at least one pixel the driver
    returns a grid of the size of the image whose pixels are all 0 or 255. *)
Theorem extractEdgeCanny_returns_binary (image : CImg) (method : Z) :
  rgb_img image ->
  0 < width image -> 0 < height image -> width image * height image < 2 ^ 31 ->
  exists g,
    snd (extractEdgeCanny atan2_deg image method) = Returned g /\
    wf_img g /\ width g = width image /\ height g = height image /\ binary g.
Proof.
  intros _ HW HH Hn.
  destruct (extractEdgeCanny_tracks image method) as (edge & -> & Hw & Hh & Hl).
  assert (Hwf : wf_img edge) by (unfold wf_img; rewrite Hw, Hh, Hl; lia).
  assert (Hsz : 0 < width edge * height edge < 2 ^ 31) by (rewrite Hw, Hh; nia).
  destruct (trackEdge_result edge Hwf Hsz) as (e' & g & _ & Hg & Hwfg & Hgw & Hgh & _ & Hbin).
  exists g. split; [exact Hg|]. split; [exact Hwfg|].
  split; [congruence|]. split; [congruence|].
  intros x y Hin. apply Hbin. unfold inb in *. rewrite <- Hgw, <- Hgh. exact Hin.
Qed.

(** X2.  On an image without pixels the driver reaches the division of
    [trackEdge] with the divisor 0, whatever the method. *)
Theorem extractEdgeCanny_empty (image : CImg) (method : Z) :
  width image * height image = 0 ->
  snd (extractEdgeCanny atan2_deg image method) = DivisionByZero.
Proof.
  intros H0.
  destruct (extractEdgeCanny_tracks image method) as (edge & -> & Hw & Hh & _).
  unfold trackEdge, numPixels. rewrite Hw, Hh, H0. reflexivity.
Qed.

End DriverProps.

Lemma extractEdgeCanny_returns_binary_witness :
  exists g,
    snd (extractEdgeCanny zero_atan (rgb_flat 3 3 100) 0) = Returned g /\
    wf_img g /\ width g = width (rgb_flat 3 3 100) /\
    height g = height (rgb_flat 3 3 100) /\ binary g.
Proof.
  apply (extractEdgeCanny_returns_binary zero_atan (rgb_flat 3 3 100) 0).
  - unfold rgb_img; simpl; lia.
  - simpl; lia.
  - simpl; lia.
  - simpl; lia.
Defined.

Lemma extractEdgeCanny_empty_witness :
  snd (extractEdgeCanny zero_atan (rgb_flat 0 4 100) 1) = DivisionByZero.
Proof. apply (extractEdgeCanny_empty zero_atan (rgb_flat 0 4 100) 1). reflexivity. Defined.

(** ** A second run of the tracking *)

Lemma binary_bytes (e : CImg) : wf_img e -> binary e -> bytes e.
Proof.
  intros Hwf Hbin. unfold bytes. apply Forall_lookup_2. intros i v Hi.
  destruct e as [w h d]. pose proof Hwf as (Hw & Hh & Hl). simpl in *.
  pose proof (lookup_lt_Some _ _ _ Hi) as Hlt.
  assert (Hwpos : 0 < w) by nia.
  set (x := Z.of_nat i mod w). set (y := Z.of_nat i / w).
  assert (Hx : 0 <= x < w) by (apply Z.mod_pos_bound; lia).
  assert (Hxy : Z.of_nat i = x + y * w).
  { unfold x, y. rewrite (Z.div_mod (Z.of_nat i) w) at 1 by lia. lia. }
  assert (Hy : 0 <= y < h) by nia.
  assert (Hin : inb (mkImg w h d) x y) by (unfold inb; simpl; lia).
  pose proof (px_lookup (mkImg w h d) x y Hwf Hin) as H1.
  rewrite offset_xy in H1. simpl in H1.
  replace (Z.to_nat (x + y * w)) with i in H1 by lia.
  rewrite Hi in H1. injection H1 as ->.
  destruct (Hbin x y Hin) as [-> | ->]; lia.
Qed.

(** X18.  What a second run of [trackEdge] does to the grid [g] that a first
    run returned: if the high threshold of [g] is not 0 the grid comes back
    as it is, and if it is 0 the grid comes back with every pixel 255. *)
Theorem trackEdge_twice (edge g : CImg) :
  wf_img edge -> 0 < width edge * height edge < 2 ^ 31 ->
  trackEdge edge = Returned g ->
  trackEdge g
  = Returned (if highThreshold_of g =? 0
              then flat_grid (width g) (height g) 255 else g).
Proof.
  intros Hwf Hn Hg.
  destruct (trackEdge_result edge Hwf Hn) as (e' & g' & _ & Hg' & Hwfg & Hw & Hh & _ & Hbin).
  rewrite Hg in Hg'. injection Hg' as <-.
  assert (Hbg : binary g).
  { intros x y Hin. apply Hbin. unfold inb in *. rewrite <- Hw, <- Hh. exact Hin. }
  assert (Hng : 0 < width g * height g < 2 ^ 31) by (rewrite Hw, Hh; exact Hn).
  destruct (highThreshold_of g =? 0) eqn:E.
  - apply Z.eqb_eq in E.
    apply (trackEdge_high_zero g Hwfg (binary_bytes g Hwfg Hbg) Hng E).
  - apply Z.eqb_neq in E. apply trackEdge_binary_fixed; assumption.
Qed.

Lemma trackEdge_twice_witness :
  trackEdge (mkImg 2 1 [0; 0])
  = Returned (if highThreshold_of (mkImg 2 1 [0; 0]) =? 0
              then flat_grid (width (mkImg 2 1 [0; 0])) (height (mkImg 2 1 [0; 0])) 255
              else mkImg 2 1 [0; 0]).
Proof.
  apply (trackEdge_twice (mkImg 2 1 [10; 20]) (mkImg 2 1 [0; 0])).
  - unfold wf_img; simpl; lia.
  - simpl; lia.
  - vm_compute; reflexivity.
Defined.
